(** * script-update-branch-count: the ingestion-to-update pipeline

    A shallow embedding of [main.go]: the record source ([fileLoader]),
    the store gateway ([updateBranchCount]) and the pipeline
    coordinator ([handleMerchant]), with the properties of the
    specification stated over them. *)

From Stdlib Require Import ZArith List String Ascii Bool Lia Relations.
Import ListNotations.
Open Scope Z_scope.

(** ** Go values *)

(** Fixed-width integers are integers of [Z] with the wrap-around of a
    Go conversion written out. *)
Definition uint64 (x : Z) : Z := x mod 2 ^ 64.
Definition int64 (x : Z) : Z := (x + 2 ^ 63) mod 2 ^ 64 - 2 ^ 63.
Definition int32 (x : Z) : Z := (x + 2 ^ 31) mod 2 ^ 32 - 2 ^ 31.

Definition in_int64 (x : Z) : Prop := - 2 ^ 63 <= x < 2 ^ 63.
Definition in_int32 (x : Z) : Prop := - 2 ^ 31 <= x < 2 ^ 31.

(** The sentinel errors of [strconv]. *)
Inductive NumErr : Type :=
| ErrSyntax
| ErrRange
| ErrBase
| ErrBitSize.

(** The [error] values the program can observe. *)
Inductive error : Type :=
| NumError (Func : string) (Num : string) (Err : NumErr)  (* *strconv.NumError *)
| ErrRecordNotFound                                       (* gorm.ErrRecordNotFound *)
| ErrDriver (msg : string)                                (* a failure of the database *)
| EOF                                                     (* io.EOF *)
| ErrFile (msg : string).                                 (* os and encoding/csv failures *)

Definition is_EOF (err : error) : bool :=
  match err with EOF => true | _ => false end.

(* errors.Is(err, gorm.ErrRecordNotFound) *)
Definition is_ErrRecordNotFound (err : error) : bool :=
  match err with ErrRecordNotFound => true | _ => false end.

(** A Go computation either yields a value or panics. *)
Inductive outcome (A : Type) : Type :=
| Val (a : A)
| Panic (why : string).
Arguments Val {A} a.
Arguments Panic {A} why.

(** ** strconv.ParseInt

    The library routine the record source calls, for an explicit base
    between 2 and 36 (the prefix detection of base 0 is not used by the
    program and is answered with the base error here). *)
Module strconv.

Definition maxUint64 : Z := 2 ^ 64 - 1.

Definition byte_of (c : ascii) : Z := Z.of_N (N_of_ascii c).

(* lower(c) is c | ('x' - 'X') *)
Definition lower (c : Z) : Z := Z.lor c 32.

Definition digit_of (c : ascii) : option Z :=
  let b := byte_of c in
  if (48 <=? b) && (b <=? 57) then Some (b - 48)
  else if (97 <=? lower b) && (lower b <=? 122) then Some (lower b - 97 + 10)
  else None.

(** The digit loop of [ParseUint]: [n] is the accumulator. *)
Fixpoint ParseUint_loop (base cutoff maxVal : Z) (s : string) (n : Z)
  : Z * option NumErr :=
  match s with
  | EmptyString => (n, None)
  | String c rest =>
      match digit_of c with
      | None => (0, Some ErrSyntax)
      | Some d =>
          if d >=? base then (0, Some ErrSyntax)
          else if n >=? cutoff then (maxVal, Some ErrRange)
          else
            let n' := uint64 (n * base) in
            let n1 := uint64 (n' + d) in
            if (n1 <? n') || (n1 >? maxVal) then (maxVal, Some ErrRange)
            else ParseUint_loop base cutoff maxVal rest n1
      end
  end.

Definition ParseUint (s : string) (base bitSize : Z) : Z * option NumErr :=
  match s with
  | EmptyString => (0, Some ErrSyntax)
  | _ =>
      if negb ((2 <=? base) && (base <=? 36)) then (0, Some ErrBase)
      else if (bitSize <? 0) || (bitSize >? 64) then (0, Some ErrBitSize)
      else
        let bitSize := if bitSize =? 0 then 64 else bitSize in
        let cutoff := maxUint64 / base + 1 in
        let maxVal := uint64 (uint64 (2 ^ bitSize) - 1) in
        ParseUint_loop base cutoff maxVal s 0
  end.

Definition fnParseInt : string := "ParseInt".

Definition ParseInt (s : string) (base bitSize : Z) : Z * option error :=
  match s with
  | EmptyString => (0, Some (NumError fnParseInt s ErrSyntax))
  | String c0 rest =>
      let s0 := s in
      let '(neg, s) :=
        if Ascii.eqb c0 "+" then (false, rest)
        else if Ascii.eqb c0 "-" then (true, rest)
        else (false, s) in
      let '(un, err) := ParseUint s base bitSize in
      match err with
      | Some ErrSyntax => (0, Some (NumError fnParseInt s0 ErrSyntax))
      | Some ErrBase => (0, Some (NumError fnParseInt s0 ErrBase))
      | Some ErrBitSize => (0, Some (NumError fnParseInt s0 ErrBitSize))
      | _ =>
          let bitSize := if bitSize =? 0 then 64 else bitSize in
          let cutoff := 2 ^ (bitSize - 1) in
          if negb neg && (un >=? cutoff)
          then (cutoff - 1, Some (NumError fnParseInt s0 ErrRange))
          else if neg && (un >? cutoff)
          then (- cutoff, Some (NumError fnParseInt s0 ErrRange))
          else
            let n := int64 un in
            let n := if neg then int64 (- n) else n in
            (n, None)
      end
  end.

End strconv.

(** The integer a decimal numeral denotes: an optional sign followed by
    one or more decimal digits, read in base ten. *)
Definition is_dec_digit (c : ascii) : bool :=
  let b := strconv.byte_of c in (48 <=? b) && (b <=? 57).

Fixpoint dec_value (acc : Z) (s : string) : option Z :=
  match s with
  | EmptyString => Some acc
  | String c rest =>
      if is_dec_digit c then dec_value (acc * 10 + (strconv.byte_of c - 48)) rest
      else None
  end.

Definition unsigned_value (s : string) : option Z :=
  match s with
  | EmptyString => None
  | _ => dec_value 0 s
  end.

Definition numeral_value (s : string) : option Z :=
  match s with
  | EmptyString => None
  | String c rest =>
      if Ascii.eqb c "+" then unsigned_value rest
      else if Ascii.eqb c "-" then option_map Z.opp (unsigned_value rest)
      else unsigned_value s
  end.


(** ** Data model *)

(** [time.Time] is kept as an integer time stamp; [BranchCount] is the
    [*int32] of the source, [None] for the nil pointer (SQL NULL). *)
Record Merchant : Type := {
  RetailerID : Z;
  BranchCount : option Z;
  ExpireAt : Z
}.

(* new(Merchant), var merchant Merchant *)
Definition zero_Merchant : Merchant :=
  {| RetailerID := 0; BranchCount := None; ExpireAt := 0 |}.

Definition defaultMaxOpenConns : Z := 100.
Definition defaultMaxIdleConns : Z := 5.
Definition defaultMaxConnLifeTime : Z := 3600.
Definition defaultMaxConnIdleTime : Z := 30 * 60.

Definition filePath : string := "retail.csv".
Definition tableName : string := "merchant".
Definition columnName : string := "branch_count".

(** ** Logging

    A log is the list of the calls of logrus, oldest first, each with
    its level, its format and its arguments. *)

Inductive Level : Type := DebugLevel | InfoLevel | ErrorLevel.

Inductive LogArg : Type :=
| AInt (z : Z)
| AErr (err : error).

Record LogEntry : Type := {
  level : Level;
  format : string;
  args : list LogArg
}.

Definition entry (l : Level) (f : string) (a : list LogArg) : LogEntry :=
  {| level := l; format := f; args := a |}.

(** ** The database

    The merchant table is a list of rows.  A statement sent to the
    database either executes or fails; [faults] is the schedule of
    these outcomes as the environment decides them, one per statement
    ([None]: the statement executes, [Some msg]: it fails with that
    message), and every statement after the schedule executes. *)

(* clause.Eq *)
Record Eq : Type := {
  Column : string;
  Value : Z
}.

Inductive StoreOp : Type :=
| OpTake (table : string) (cond : Eq)
| OpUpdate (table : string) (cond : Eq) (column : string) (value : Z).

Record World : Type := {
  rows : list Merchant;
  faults : list (option string);
  issued : list StoreOp;
  logged : list LogEntry
}.

(** The integer columns of the table; [Some None] is SQL NULL. *)
Definition get_column (column : string) (r : Merchant) : option (option Z) :=
  if String.eqb column "retailer_id" then Some (Some (RetailerID r))
  else if String.eqb column "branch_count" then Some (BranchCount r)
  else if String.eqb column "expire_at" then Some (Some (ExpireAt r))
  else None.

Definition set_column (column : string) (v : Z) (r : Merchant) : option Merchant :=
  if String.eqb column "retailer_id"
  then Some {| RetailerID := v; BranchCount := BranchCount r; ExpireAt := ExpireAt r |}
  else if String.eqb column "branch_count"
  then Some {| RetailerID := RetailerID r; BranchCount := Some v; ExpireAt := ExpireAt r |}
  else if String.eqb column "expire_at"
  then Some {| RetailerID := RetailerID r; BranchCount := BranchCount r; ExpireAt := v |}
  else None.

Definition known_column (column : string) : bool :=
  match get_column column zero_Merchant with Some _ => true | None => false end.

(* WHERE column = value *)
Definition matches (cond : Eq) (r : Merchant) : bool :=
  match get_column (Column cond) r with
  | Some (Some v) => v =? Value cond
  | _ => false
  end.

Definition update_row (cond : Eq) (column : string) (v : Z) (r : Merchant) : Merchant :=
  if matches cond r
  then match set_column column v r with Some r' => r' | None => r end
  else r.

(** *gorm.DB with the pool settings of its sql.DB; the program holds
    an [option DB], [None] being the nil pointer. *)
Record DB : Type := {
  MaxOpenConns : Z;
  MaxIdleConns : Z;
  ConnMaxLifetime : Z;
  ConnMaxIdleTime : Z
}.

(** ** The monad of the consumer: state [World], panics *)

Definition M (A : Type) : Type := World -> outcome A * World.

Definition ret {A : Type} (a : A) : M A := fun w => (Val a, w).

Definition bind {A B : Type} (c : M A) (k : A -> M B) : M B :=
  fun w =>
    match c w with
    | (Val a, w') => k a w'
    | (Panic why, w') => (Panic why, w')
    end.

Definition panic {A : Type} (why : string) : M A := fun w => (Panic why, w).

Declare Scope go_scope.
Delimit Scope go_scope with go.
Notation "x <- c ;; k" := (bind c (fun x => k))
  (at level 61, c at next level, right associativity) : go_scope.
Notation "' pat <- c ;; k" := (bind c (fun x => match x with pat => k end))
  (at level 61, pat pattern, c at next level, right associativity) : go_scope.
Notation "c ;; k" := (bind c (fun _ => k))
  (at level 61, right associativity) : go_scope.
Open Scope go_scope.

Definition log (e : LogEntry) : M unit :=
  fun w => (Val tt, {| rows := rows w; faults := faults w; issued := issued w;
                       logged := logged w ++ [e] |}).

Definition Infof (f : string) (a : list LogArg) : M unit := log (entry InfoLevel f a).
Definition Error (err : error) : M unit := log (entry ErrorLevel "%v" [AErr err]).

(** Sending a statement: it is recorded, and the environment's next
    decision is taken from the schedule. *)
Definition send (op : StoreOp) : M (option string) :=
  fun w =>
    let f := match faults w with [] => None | f :: _ => f end in
    (Val f, {| rows := rows w; faults := tl (faults w); issued := issued w ++ [op];
               logged := logged w |}).

Definition get_rows : M (list Merchant) := fun w => (Val (rows w), w).

Definition put_rows (rs : list Merchant) : M unit :=
  fun w => (Val tt, {| rows := rs; faults := faults w; issued := issued w;
                       logged := logged w |}).

Definition nil_dereference : string :=
  "invalid memory address or nil pointer dereference".

(* db.Table(table).Clauses(cond).Take(dest).Error; the result carries
   the destination as the call leaves it *)
Definition Take (db : option DB) (table : string) (cond : Eq) (dest : Merchant)
  : M (Merchant * option error) :=
  match db with
  | None => panic nil_dereference
  | Some _ =>
      f <- send (OpTake table cond) ;;
      match f with
      | Some msg => ret (dest, Some (ErrDriver msg))
      | None =>
          if negb (String.eqb table "merchant")
          then ret (dest, Some (ErrDriver "table does not exist"))
          else if negb (known_column (Column cond))
          then ret (dest, Some (ErrDriver "unknown column"))
          else
            rs <- get_rows ;;
            match find (matches cond) rs with
            | Some r => ret (r, None)
            | None => ret (dest, Some ErrRecordNotFound)
            end
      end
  end.

(* db.Table(table).Clauses(cond).Update(column, value).Error *)
Definition Update (db : option DB) (table : string) (cond : Eq)
    (column : string) (value : Z) : M (option error) :=
  match db with
  | None => panic nil_dereference
  | Some _ =>
      f <- send (OpUpdate table cond column value) ;;
      match f with
      | Some msg => ret (Some (ErrDriver msg))
      | None =>
          if negb (String.eqb table "merchant")
          then ret (Some (ErrDriver "table does not exist"))
          else if negb (known_column (Column cond) && known_column column)
          then ret (Some (ErrDriver "unknown column"))
          else
            rs <- get_rows ;;
            put_rows (map (update_row cond column value) rs) ;;
            ret None
      end
  end.

(* *p for a pointer p *)
Definition deref {A : Type} (p : option A) : M A :=
  match p with
  | Some a => ret a
  | None => panic nil_dereference
  end.

(** ** Store gateway *)

Definition updateBranchCount (db : option DB) (retailerID : Z)
    (branchCount : option Z) : M (option error) :=
  let merchant := zero_Merchant in
  let cond := {| Column := "retailer_id"; Value := retailerID |} in
  '(merchant, err) <- Take db tableName cond merchant ;;
  match err with
  | Some err =>
      if is_ErrRecordNotFound err
      then Infof "Retailer ID %d not found" [AInt retailerID] ;; ret None
      else ret (Some err)
  | None =>
      match BranchCount merchant with
      | None =>
          v <- deref branchCount ;;
          Infof "Update branch count to %d" [AInt v] ;;
          err <- Update db tableName cond columnName v ;;
          match err with
          | Some err => ret (Some err)
          | None => ret None
          end
      | Some c =>
          Infof "Branch count already set to %d" [AInt c] ;;
          ret None
      end
  end.

(** The consumer's treatment of one received record (the [more]
    branch of its loop). *)
Definition consume (db : option DB) (merchant : Merchant) : M unit :=
  Infof "Handle update branch count merchant with retailer id %d"
        [AInt (RetailerID merchant)] ;;
  err <- updateBranchCount db (RetailerID merchant) (BranchCount merchant) ;;
  match err with
  | Some err => Error err
  | None => ret tt
  end.

Fixpoint consume_all (db : option DB) (ms : list Merchant) : M unit :=
  match ms with
  | [] => ret tt
  | m :: ms => consume db m ;; consume_all db ms
  end.

(** ** Record source *)

(** The input file as [encoding/csv] presents it: what the successive
    calls of [reader.Read] return, a record (its fields) or an error;
    after the last one the reader answers [io.EOF]. *)
Inductive ReadResult : Type :=
| Line (fields : list string)
| ReadErr (err : error).

Record File : Type := {
  open_err : option error;       (* the result of os.Open(filePath) *)
  content : list ReadResult;
  close_err : option error       (* the result of file.Close() *)
}.

(* reader.Read() *)
Definition Read (rd : list ReadResult) : (list string * option error) * list ReadResult :=
  match rd with
  | [] => (([], Some EOF), [])
  | Line fields :: rest => ((fields, None), rest)
  | ReadErr err :: rest => (([], Some err), rest)
  end.

(* line[i] *)
Definition index (line : list string) (i : nat) : outcome string :=
  match nth_error line i with
  | Some f => Val f
  | None => Panic "index out of range"
  end.

(** How one iteration of the loop of [fileLoader] leaves. *)
Inductive Iteration : Type :=
| Break
| Return (err : error) (logs : list LogEntry)
| Send (merchant : Merchant)
| Panics (why : string).

(** The body of the loop, after [reader.Read] gave [line] and [err];
    [merchant] is the variable declared before the loop. *)
Definition fileLoader_body (merchant : Merchant) (line : list string)
    (err : option error) : Iteration :=
  match err with
  | Some err => if is_EOF err then Break else Return err []
  | None =>
      match index line 0 with
      | Panic why => Panics why
      | Val f0 =>
          let '(retailerID, err) := strconv.ParseInt f0 10 64 in
          match err with
          | Some err =>
              Return err [entry ErrorLevel "Error parser Retailer ID: %+v" [AErr err]]
          | None =>
              match index line 1 with
              | Panic why => Panics why
              | Val f1 =>
                  let '(branchCountInt64, err) := strconv.ParseInt f1 10 64 in
                  match err with
                  | Some err =>
                      Return err [entry ErrorLevel "Error parser Branch Count: %+v" [AErr err]]
                  | None =>
                      let branchCount := int32 branchCountInt64 in
                      Send {| RetailerID := retailerID;
                              BranchCount := Some branchCount;
                              ExpireAt := ExpireAt merchant |}
                  end
              end
          end
      end
  end.

(** How [fileLoader] ends: it returns or it panics, having logged the
    lines of its exit path. *)
Inductive LoaderEnd : Type :=
| Returned (err : option error) (logs : list LogEntry)
| Panicked (why : string) (logs : list LogEntry).

(* the deferred file.Close() *)
Definition closing (f : File) : list LogEntry :=
  match close_err f with
  | Some err => [entry ErrorLevel "Cannot close file with error: %+v" [AErr err]]
  | None => []
  end.

(* the goroutine that called fileLoader logs the error it returned *)
Definition report (err : option error) : list LogEntry :=
  match err with
  | Some err => [entry ErrorLevel "Error when load file: %+v" [AErr err]]
  | None => []
  end.

(** The loop of [fileLoader] run to its end against a receiver that is
    always ready: the records sent on the channel in order, how the
    function ends, and the input left unread. *)
Fixpoint fileLoader_loop (f : File) (merchant : Merchant) (rd : list ReadResult)
  : list Merchant * LoaderEnd * list ReadResult :=
  let '((line, err), rest) := Read rd in
  match fileLoader_body merchant line err with
  | Break => ([], Returned None (closing f), rest)
  | Return err logs => ([], Returned (Some err) (logs ++ closing f), rest)
  | Panics why => ([], Panicked why (closing f), rest)
  | Send m =>
      match rd with
      | [] => ([], Returned None (closing f), rest)   (* at its end the reader answers io.EOF *)
      | _ :: rd' =>
          let '(ms, e, unread) := fileLoader_loop f m rd' in (m :: ms, e, unread)
      end
  end.

Definition fileLoader (f : File) : list Merchant * LoaderEnd * list ReadResult :=
  match open_err f with
  | Some err => ([], Returned (Some err) [], [])
  | None => fileLoader_loop f zero_Merchant (content f)
  end.

(** ** Pipeline coordinator

    [handleMerchant] starts three goroutines and waits on [done]: the
    consumer (the loop receiving from [pipe]), the producer (the call
    of [fileLoader]) and the one that closes [pipe] after [wg.Wait].
    The state of the process is the control point of each goroutine
    with the objects they share; a step is a move of one goroutine, or
    of two that meet on an unbuffered channel. *)

Inductive Producer : Type :=
| POpen                           (* before os.Open *)
| PLoop (merchant : Merchant)     (* at the head of the loop *)
| PSend (merchant : Merchant)     (* blocked at pipe <- merchant *)
| PReturned (err : option error)  (* fileLoader has returned *)
| PExit (err : option error).     (* its goroutine has ended *)

Inductive Consumer : Type :=
| CRecv                           (* blocked at <-pipe *)
| CHandle (merchant : Merchant)   (* received, more = true *)
| CSignal                         (* blocked at done <- true *)
| CExit.

Inductive Main : Type :=
| MWaitDone                       (* blocked at <-done *)
| MReturned.

Record Sys : Type := {
  db : option DB;
  world : World;                  (* the database and the consumer's log *)
  file : File;
  reader : list ReadResult;       (* what the reader has not read yet *)
  producer : Producer;
  plog : list LogEntry;           (* the producer's log *)
  wg : Z;
  pipe_closed : bool;
  consumer : Consumer;
  main : Main;
  mlog : list LogEntry;           (* the log of handleMerchant itself *)
  crashed : option string         (* a panic ended the process *)
}.

Definition set_world (w : World) (s : Sys) : Sys :=
  {| db := db s; world := w; file := file s; reader := reader s;
     producer := producer s; plog := plog s; wg := wg s;
     pipe_closed := pipe_closed s; consumer := consumer s; main := main s;
     mlog := mlog s; crashed := crashed s |}.

Definition set_reader (rd : list ReadResult) (s : Sys) : Sys :=
  {| db := db s; world := world s; file := file s; reader := rd;
     producer := producer s; plog := plog s; wg := wg s;
     pipe_closed := pipe_closed s; consumer := consumer s; main := main s;
     mlog := mlog s; crashed := crashed s |}.

Definition set_producer (p : Producer) (s : Sys) : Sys :=
  {| db := db s; world := world s; file := file s; reader := reader s;
     producer := p; plog := plog s; wg := wg s;
     pipe_closed := pipe_closed s; consumer := consumer s; main := main s;
     mlog := mlog s; crashed := crashed s |}.

Definition add_plog (l : list LogEntry) (s : Sys) : Sys :=
  {| db := db s; world := world s; file := file s; reader := reader s;
     producer := producer s; plog := plog s ++ l; wg := wg s;
     pipe_closed := pipe_closed s; consumer := consumer s; main := main s;
     mlog := mlog s; crashed := crashed s |}.

Definition set_wg (n : Z) (s : Sys) : Sys :=
  {| db := db s; world := world s; file := file s; reader := reader s;
     producer := producer s; plog := plog s; wg := n;
     pipe_closed := pipe_closed s; consumer := consumer s; main := main s;
     mlog := mlog s; crashed := crashed s |}.

Definition close_pipe (s : Sys) : Sys :=
  {| db := db s; world := world s; file := file s; reader := reader s;
     producer := producer s; plog := plog s; wg := wg s;
     pipe_closed := true; consumer := consumer s; main := main s;
     mlog := mlog s; crashed := crashed s |}.

Definition set_consumer (c : Consumer) (s : Sys) : Sys :=
  {| db := db s; world := world s; file := file s; reader := reader s;
     producer := producer s; plog := plog s; wg := wg s;
     pipe_closed := pipe_closed s; consumer := c; main := main s;
     mlog := mlog s; crashed := crashed s |}.

Definition set_main (m : Main) (s : Sys) : Sys :=
  {| db := db s; world := world s; file := file s; reader := reader s;
     producer := producer s; plog := plog s; wg := wg s;
     pipe_closed := pipe_closed s; consumer := consumer s; main := m;
     mlog := mlog s; crashed := crashed s |}.

Definition crash (why : string) (s : Sys) : Sys :=
  {| db := db s; world := world s; file := file s; reader := reader s;
     producer := producer s; plog := plog s; wg := wg s;
     pipe_closed := pipe_closed s; consumer := consumer s; main := main s;
     mlog := mlog s; crashed := Some why |}.

(** The process runs until [handleMerchant] returns, which ends
    [main] and with it every goroutine where it stands, or until a
    goroutine panics. *)
Definition alive (s : Sys) : bool :=
  match crashed s, main s with
  | None, MWaitDone => true
  | _, _ => false
  end.

(* wg.Done() *)
Definition wg_Done (s : Sys) : Sys :=
  if wg s - 1 <? 0 then crash "sync: negative WaitGroup counter" s
  else set_wg (wg s - 1) s.

(** [fileLoader] returns [err] after logging [logs]: the deferred calls
    run, [file.Close] when the file was opened, then [wg.Done]. *)
Definition producer_return (err : option error) (logs : list LogEntry)
    (opened : bool) (s : Sys) : Sys :=
  let s := add_plog (logs ++ (if opened then closing (file s) else [])) s in
  let s := wg_Done s in
  match crashed s with
  | Some _ => s
  | None => set_producer (PReturned err) s
  end.

(** A panic in [fileLoader]: the deferred calls run and the process
    ends.  The panic is one step: the Go runtime lets no return of
    [main] win over a panic in progress, and the moves the other
    goroutines could still make while it unwinds are left out. *)
Definition producer_panic (why : string) (s : Sys) : Sys :=
  crash why (wg_Done (add_plog (closing (file s)) s)).

Definition producer_step (s : Sys) : option Sys :=
  match producer s with
  | POpen =>
      match open_err (file s) with
      | Some err => Some (producer_return (Some err) [] false s)
      | None => Some (set_producer (PLoop zero_Merchant) (set_reader (content (file s)) s))
      end
  | PLoop merchant =>
      let '((line, err), rest) := Read (reader s) in
      let s := set_reader rest s in
      match fileLoader_body merchant line err with
      | Break => Some (producer_return None [] true s)
      | Return err logs => Some (producer_return (Some err) logs true s)
      | Send m => Some (set_producer (PSend m) s)
      | Panics why => Some (producer_panic why s)
      end
  | PSend _ =>
      if pipe_closed s then Some (producer_panic "send on closed channel" s)
      else None
  | PReturned err =>
      (* if err != nil { logrus.Errorf(...) } *)
      Some (set_producer (PExit err) (add_plog (report err) s))
  | PExit _ => None
  end.

(** The producer's send meets the consumer's receive. *)
Definition handoff (s : Sys) : option Sys :=
  match producer s, consumer s with
  | PSend m, CRecv =>
      if pipe_closed s then None
      else Some (set_consumer (CHandle m) (set_producer (PLoop m) s))
  | _, _ => None
  end.

Definition consumer_step (s : Sys) : option Sys :=
  match consumer s with
  | CRecv =>
      if pipe_closed s
      then Some (set_consumer CSignal
                   (set_world (snd (Infof "Done" [] (world s))) s))
      else None
  | CHandle m =>
      (* the call is one step: only the consumer talks to the database *)
      match consume (db s) m (world s) with
      | (Val _, w) => Some (set_consumer CRecv (set_world w s))
      | (Panic why, w) => Some (crash why (set_world w s))
      end
  | CSignal => None
  | CExit => None
  end.

(* wg.Wait(); close(pipe) *)
Definition closer_step (s : Sys) : option Sys :=
  if (wg s =? 0) && negb (pipe_closed s) then Some (close_pipe s) else None.

(** The consumer's send on [done] meets the receive of
    [handleMerchant], which returns. *)
Definition done_step (s : Sys) : option Sys :=
  match consumer s, main s with
  | CSignal, MWaitDone => Some (set_main MReturned (set_consumer CExit s))
  | _, _ => None
  end.

Inductive step (s s' : Sys) : Prop :=
| step_producer : alive s = true -> producer_step s = Some s' -> step s s'
| step_handoff : alive s = true -> handoff s = Some s' -> step s s'
| step_consumer : alive s = true -> consumer_step s = Some s' -> step s s'
| step_closer : alive s = true -> closer_step s = Some s' -> step s s'
| step_done : alive s = true -> done_step s = Some s' -> step s s'.

(** Executions: any number of steps, in any order the goroutines are
    scheduled. *)
Definition steps : Sys -> Sys -> Prop := clos_refl_trans_1n Sys step.

(** What the program is started in. *)
Record Environment : Type := {
  gorm_Open : option error;        (* the result of gorm.Open *)
  db_DB : option error;            (* the result of db.DB() *)
  table : list Merchant;           (* the merchant table *)
  outcomes : list (option string); (* the outcomes of the statements to come *)
  retail_csv : File                (* the file at filePath *)
}.

Definition opened_DB : DB :=
  {| MaxOpenConns := 0; MaxIdleConns := 2; ConnMaxLifetime := 0; ConnMaxIdleTime := 0 |}.

Definition configConnection (env : Environment) (d : DB) : DB * option error :=
  match db_DB env with
  | Some err => (d, Some err)
  | None =>
      ({| MaxOpenConns := defaultMaxOpenConns;
          MaxIdleConns := defaultMaxIdleConns;
          ConnMaxLifetime := defaultMaxConnLifeTime;
          ConnMaxIdleTime := defaultMaxConnIdleTime |}, None)
  end.

Definition newDB (env : Environment) : option DB * option error :=
  match gorm_Open env with
  | Some err => (None, Some err)
  | None =>
      let '(d, err) := configConnection env opened_DB in
      match err with
      | Some err => (None, Some err)
      | None => (Some d, None)
      end
  end.

(** [handleMerchant] up to its [<-done]: the database is opened, the
    error logged if there is one, and the goroutines are started. *)
Definition handleMerchant_start (env : Environment) : Sys :=
  let '(d, err) := newDB env in
  {| db := d;
     world := {| rows := table env; faults := outcomes env; issued := []; logged := [] |};
     file := retail_csv env;
     reader := [];
     producer := POpen;
     plog := [];
     wg := 1;
     pipe_closed := false;
     consumer := CRecv;
     main := MWaitDone;
     mlog := entry DebugLevel "Coming Create Storage" [] ::
             match err with
             | Some err => [entry ErrorLevel "%v" [AErr err]]
             | None => []
             end;
     crashed := None |}.

(** One schedule among the possible ones, to run the program. *)
Definition schedule (s : Sys) : option Sys :=
  if alive s then
    match handoff s with
    | Some s' => Some s'
    | None =>
        match consumer_step s with
        | Some s' => Some s'
        | None =>
            match producer_step s with
            | Some s' => Some s'
            | None =>
                match closer_step s with
                | Some s' => Some s'
                | None => done_step s
                end
            end
        end
    end
  else None.

Fixpoint run (fuel : nat) (s : Sys) : Sys :=
  match fuel with
  | O => s
  | S fuel => match schedule s with Some s' => run fuel s' | None => s end
  end.

(** A bound on the number of steps left. *)
Definition producer_weight (s : Sys) : nat :=
  match producer s with
  | POpen => 3 * List.length (content (file s)) + 3
  | PLoop _ => 3 * List.length (reader s) + 2
  | PSend _ => 3 * List.length (reader s) + 4
  | PReturned _ => 1
  | PExit _ => 0
  end.

Definition consumer_weight (s : Sys) : nat :=
  match consumer s with
  | CHandle _ => 3
  | CRecv => 2
  | CSignal => 1
  | CExit => 0
  end.

Definition weight (s : Sys) : nat :=
  if alive s
  then S (producer_weight s + consumer_weight s + (if pipe_closed s then 0 else 1))
  else 0%nat.

Definition handleMerchant (env : Environment) : Sys :=
  let s := handleMerchant_start env in run (weight s) s.

(** ** Vocabulary of the properties *)

(** The condition [updateBranchCount] builds for a key. *)
Definition cond_of (retailerID : Z) : Eq :=
  {| Column := "retailer_id"; Value := retailerID |}.

(** [retailer_id] is the key of the merchant table. *)
Definition unique_keys (rs : list Merchant) : Prop := NoDup (map RetailerID rs).

(** The row of a key: the first one in the table with it. *)
Definition lookup (retailerID : Z) (rs : list Merchant) : option Merchant :=
  find (fun r => RetailerID r =? retailerID) rs.

Definition with_branch_count (v : Z) (r : Merchant) : Merchant :=
  {| RetailerID := RetailerID r; BranchCount := Some v; ExpireAt := ExpireAt r |}.

(** The table after the branch count of a key is written. *)
Definition write_branch_count (retailerID v : Z) (rs : list Merchant) : list Merchant :=
  map (fun r => if RetailerID r =? retailerID then with_branch_count v r else r) rs.

Definition is_update (op : StoreOp) : bool :=
  match op with OpUpdate _ _ _ _ => true | OpTake _ _ => false end.

(** The number of updates among the statements sent. *)
Definition updates (ops : list StoreOp) : nat := List.length (filter is_update ops).

(** The outcome the environment gives to the [n]-th statement to come. *)
Definition outcome_at (n : nat) (w : World) : option string :=
  nth n (faults w) None.

(** The world after a statement was sent, after a line was logged,
    after the table was replaced. *)
Definition sent (op : StoreOp) (w : World) : World :=
  {| rows := rows w; faults := tl (faults w); issued := issued w ++ [op];
     logged := logged w |}.

Definition logs (e : LogEntry) (w : World) : World :=
  {| rows := rows w; faults := faults w; issued := issued w;
     logged := logged w ++ [e] |}.

Definition stored (rs : list Merchant) (w : World) : World :=
  {| rows := rs; faults := faults w; issued := issued w; logged := logged w |}.

Definition take_of (retailerID : Z) : StoreOp := OpTake tableName (cond_of retailerID).

Definition update_of (retailerID v : Z) : StoreOp :=
  OpUpdate tableName (cond_of retailerID) columnName v.

(** The paths through [updateBranchCount] with an open database: what
    the call returns and the world it leaves, by the answers of the
    database. *)
Inductive gateway_path (retailerID : Z) (branchCount : option Z) (w : World)
  : outcome (option error) -> World -> Prop :=
| lookup_failed (msg : string) :
    outcome_at 0 w = Some msg ->
    gateway_path retailerID branchCount w
      (Val (Some (ErrDriver msg)))
      (sent (take_of retailerID) w)
| not_found :
    outcome_at 0 w = None ->
    lookup retailerID (rows w) = None ->
    gateway_path retailerID branchCount w
      (Val None)
      (logs (entry InfoLevel "Retailer ID %d not found" [AInt retailerID])
         (sent (take_of retailerID) w))
| already_set (r : Merchant) (c : Z) :
    outcome_at 0 w = None ->
    lookup retailerID (rows w) = Some r ->
    BranchCount r = Some c ->
    gateway_path retailerID branchCount w
      (Val None)
      (logs (entry InfoLevel "Branch count already set to %d" [AInt c])
         (sent (take_of retailerID) w))
| nil_branchCount (r : Merchant) :
    outcome_at 0 w = None ->
    lookup retailerID (rows w) = Some r ->
    BranchCount r = None ->
    branchCount = None ->
    gateway_path retailerID branchCount w
      (Panic nil_dereference)
      (sent (take_of retailerID) w)
| update_failed (r : Merchant) (v : Z) (msg : string) :
    outcome_at 0 w = None ->
    lookup retailerID (rows w) = Some r ->
    BranchCount r = None ->
    branchCount = Some v ->
    outcome_at 1 w = Some msg ->
    gateway_path retailerID branchCount w
      (Val (Some (ErrDriver msg)))
      (sent (update_of retailerID v)
         (logs (entry InfoLevel "Update branch count to %d" [AInt v])
            (sent (take_of retailerID) w)))
| updated (r : Merchant) (v : Z) :
    outcome_at 0 w = None ->
    lookup retailerID (rows w) = Some r ->
    BranchCount r = None ->
    branchCount = Some v ->
    outcome_at 1 w = None ->
    gateway_path retailerID branchCount w
      (Val None)
      (stored (write_branch_count retailerID v (rows w))
         (sent (update_of retailerID v)
            (logs (entry InfoLevel "Update branch count to %d" [AInt v])
               (sent (take_of retailerID) w)))).

Definition handle_entry (m : Merchant) : LogEntry :=
  entry InfoLevel "Handle update branch count merchant with retailer id %d"
    [AInt (RetailerID m)].

Definition done_entry : LogEntry := entry InfoLevel "Done" [].

(** What the producer of a state still does: the records it will
    send, how it ends and the input it leaves unread. *)
Definition future (s : Sys) : list Merchant * LoaderEnd * list ReadResult :=
  match producer s with
  | POpen => fileLoader (file s)
  | PLoop m => fileLoader_loop (file s) m (reader s)
  | PSend m =>
      let '(ms, e, unread) := fileLoader_loop (file s) m (reader s) in
      (m :: ms, e, unread)
  | PReturned err => ([], Returned err (plog s), reader s)
  | PExit err => ([], Returned err [], reader s)
  end.

Definition in_hand (s : Sys) : list Merchant :=
  match consumer s with
  | CHandle m => [m]
  | _ => []
  end.

(** The records the consumer has not treated yet. *)
Definition pending (s : Sys) : list Merchant := in_hand s ++ fst (fst (future s)).

(** The consumer has seen the channel closed. *)
Definition finished (s : Sys) : bool :=
  match consumer s with
  | CSignal | CExit => true
  | _ => false
  end.

(** [fileLoader] has returned. *)
Definition returned (s : Sys) : bool :=
  match producer s with
  | PReturned _ | PExit _ => true
  | _ => false
  end.

(** How the producer of a state stands to the end [e] of the record
    source with [unread] left: still on its way to it, returned as it
    says, or ended after the log of the error it returned. *)
Definition heads_for (s : Sys) (e : LoaderEnd) (unread : list ReadResult) : Prop :=
  match producer s with
  | PExit err =>
      exists logs, e = Returned err logs /\ plog s = logs ++ report err /\
                   reader s = unread
  | _ => snd (fst (future s)) = e /\ snd (future s) = unread
  end.

(** The states of an execution started in [s0] that has not crashed:
    the consumer has treated, in order, a prefix of the records the
    file yields, and the rest is pending. *)
Record Inv (s0 s : Sys) : Prop := {
  inv_db : db s = db s0;
  inv_file : file s = file s0;
  inv_mlog : mlog s = mlog s0;
  inv_crashed : crashed s = None;
  inv_future : heads_for s (snd (fst (future s0))) (snd (future s0));
  inv_wg : wg s = if returned s then 0 else 1;
  inv_open : producer s = POpen -> reader s = [];
  inv_running : returned s = false -> plog s = [] /\ pipe_closed s = false;
  inv_finished : finished s = true -> pipe_closed s = true;
  inv_main : main s = MReturned <-> consumer s = CExit;
  inv_world :
    exists (treated : list Merchant) (w : World),
      fst (fst (future s0)) = treated ++ pending s /\
      consume_all (db s0) treated (world s0) = (Val tt, w) /\
      world s = if finished s then logs done_entry w else w
}.

(** The states [handleMerchant] starts the goroutines in. *)
Record initial (s : Sys) : Prop := {
  init_reader : reader s = [];
  init_producer : producer s = POpen;
  init_plog : plog s = [];
  init_wg : wg s = 1;
  init_pipe : pipe_closed s = false;
  init_consumer : consumer s = CRecv;
  init_main : main s = MWaitDone;
  init_crashed : crashed s = None
}.

(** The sequential reading of the program on a state it starts in:
    neither the record source nor the treatment of a record it yields
    panics. *)
Definition panic_free (s0 : Sys) : Prop :=
  (exists err logs, snd (fst (fileLoader (file s0))) = Returned err logs) /\
  (exists w, consume_all (db s0) (fst (fst (fileLoader (file s0)))) (world s0) = (Val tt, w)).

(** The statements the treatment of one record sends: the lookup of
    its key, followed or not by the update of that key to its value. *)
Definition ops_of_record (m : Merchant) (ops : list StoreOp) : Prop :=
  ops = [take_of (RetailerID m)] \/
  exists v, BranchCount m = Some v /\
            ops = [take_of (RetailerID m); update_of (RetailerID m) v].

(** The statements are those of the records, one record after the
    other in the order of the list. *)
Definition in_order (ms : list Merchant) (ops : list StoreOp) : Prop :=
  exists opss, ops = List.concat opss /\ Forall2 ops_of_record ms opss.

(** How a row may change: the key and the other columns stay, a branch
    count that is present stays as it is. *)
Definition row_evolves (r r' : Merchant) : Prop :=
  RetailerID r' = RetailerID r /\
  ExpireAt r' = ExpireAt r /\
  (forall c, BranchCount r = Some c -> BranchCount r' = Some c).

(** How the table may change: the same rows, each evolved. *)
Definition evolves (rs rs' : list Merchant) : Prop := Forall2 row_evolves rs rs'.

(** The key needs no write: it has no row, or its row has a branch
    count. *)
Definition settled (retailerID : Z) (rs : list Merchant) : Prop :=
  forall r, lookup retailerID rs = Some r -> BranchCount r <> None.

Definition no_faults (w : World) : Prop := Forall (fun f => f = None) (faults w).

Definition is_handle (e : LogEntry) : bool :=
  String.eqb (format e) "Handle update branch count merchant with retailer id %d".

(** The records the consumer logged it handles, by key. *)
Definition handled (w : World) : list (list LogArg) :=
  map args (filter is_handle (logged w)).

Definition error_entry (err : error) : LogEntry := entry ErrorLevel "%v" [AErr err].

(** A line the record source turns into the record [m]. *)
Definition yields (r : ReadResult) (m : Merchant) : Prop :=
  exists fields, r = Line fields /\
                 fileLoader_body zero_Merchant fields None = Send m.

(** A line the record source stops at with the error [err]: the reader
    fails on it, or a field of it does not parse. *)
Definition fails_with (r : ReadResult) (err : error) : Prop :=
  match r with
  | Line fields => exists logs, fileLoader_body zero_Merchant fields None = Return err logs
  | ReadErr e => e = err /\ is_EOF e = false
  end.

(** ** Example environments *)

Definition row (retailerID : Z) (branchCount : option Z) (expireAt : Z) : Merchant :=
  {| RetailerID := retailerID; BranchCount := branchCount; ExpireAt := expireAt |}.

Definition csv (lines : list ReadResult) : File :=
  {| open_err := None; content := lines; close_err := None |}.

Definition pooled_DB : DB :=
  {| MaxOpenConns := defaultMaxOpenConns;
     MaxIdleConns := defaultMaxIdleConns;
     ConnMaxLifetime := defaultMaxConnLifeTime;
     ConnMaxIdleTime := defaultMaxConnIdleTime |}.

(** The file 42,7 / 43,9 on the table 42: null, 43: 3. *)
Definition two_rows : list Merchant := [row 42 None 1700000000; row 43 (Some 3) 1800000000].

Definition two_lines : Environment :=
  {| gorm_Open := None; db_DB := None;
     table := two_rows;
     outcomes := [];
     retail_csv := csv [Line ["42"%string; "7"%string]; Line ["43"%string; "9"%string]] |}.

(** The same file on the table the first run left. *)
Definition two_lines_again : Environment :=
  {| gorm_Open := None; db_DB := None;
     table := [row 42 (Some 7) 1700000000; row 43 (Some 3) 1800000000];
     outcomes := [Some "connection reset"%string];
     retail_csv := csv [Line ["42"%string; "7"%string]; Line ["43"%string; "9"%string]] |}.

(** The file 99,5 on a table without the key 99. *)
Definition unknown_key : Environment :=
  {| gorm_Open := None; db_DB := None;
     table := two_rows;
     outcomes := [];
     retail_csv := csv [Line ["99"%string; "5"%string]] |}.

(** A file whose second line does not parse. *)
Definition bad_second_line : Environment :=
  {| gorm_Open := None; db_DB := None;
     table := two_rows;
     outcomes := [];
     retail_csv := csv [Line ["42"%string; "7"%string];
                        Line ["43"%string; "x"%string];
                        Line ["44"%string; "1"%string]] |}.

(** The database fails the first statement. *)
Definition failing_lookup : Environment :=
  {| gorm_Open := None; db_DB := None;
     table := two_rows;
     outcomes := [Some "connection reset"%string];
     retail_csv := csv [Line ["42"%string; "7"%string]; Line ["43"%string; "9"%string]] |}.

(** A file whose first line has one field. *)
Definition one_field : Environment :=
  {| gorm_Open := None; db_DB := None;
     table := two_rows;
     outcomes := [];
     retail_csv := csv [Line ["42"%string]; Line ["43"%string; "9"%string]] |}.

(** The database cannot be opened. *)
Definition connection_refused : error :=
  ErrDriver "dial tcp 127.0.0.1:3306: connect: connection refused".

Definition database_down : Environment :=
  {| gorm_Open := Some connection_refused; db_DB := None;
     table := two_rows;
     outcomes := [];
     retail_csv := csv [Line ["42"%string; "7"%string]] |}.

Definition database_down_empty_file : Environment :=
  {| gorm_Open := Some connection_refused; db_DB := None;
     table := two_rows;
     outcomes := [];
     retail_csv := csv [] |}.

(** The state in which the consumer holds the first record of the
    file: the file is opened, the first line read, the record handed
    over. *)
Definition first_in_hand (env : Environment) : Sys := run 3 (handleMerchant_start env).

(** ** Further vocabulary *)

(** A line long enough for the two accesses of the loop. *)
Definition two_fields (r : ReadResult) : Prop :=
  match r with
  | Line fields => (2 <= List.length fields)%nat
  | ReadErr _ => True
  end.

(** The row a complete run without failures leaves in the place of
    [r], for the records [ms] of the file: a row with a branch count
    stays; a row without one takes the value of the first record of
    its key, if there is one. *)
Definition expected_row (ms : list Merchant) (r : Merchant) : Merchant :=
  match BranchCount r with
  | Some _ => r
  | None =>
      match find (fun m => RetailerID m =? RetailerID r) ms with
      | Some m =>
          match BranchCount m with
          | Some v => with_branch_count v r
          | None => r
          end
      | None => r
      end
  end.

Definition is_take (op : StoreOp) : bool :=
  match op with OpTake _ _ => true | OpUpdate _ _ _ _ => false end.

(** The number of lookups among the statements sent. *)
Definition takes (ops : list StoreOp) : nat := List.length (filter is_take ops).

(** Another schedule: the producer runs as far as it can before the
    consumer is given a turn. *)
Definition schedule_producer_first (s : Sys) : option Sys :=
  if alive s then
    match producer_step s with
    | Some s' => Some s'
    | None =>
        match closer_step s with
        | Some s' => Some s'
        | None =>
            match handoff s with
            | Some s' => Some s'
            | None =>
                match consumer_step s with
                | Some s' => Some s'
                | None => done_step s
                end
            end
        end
    end
  else None.

Fixpoint run_producer_first (fuel : nat) (s : Sys) : Sys :=
  match fuel with
  | O => s
  | S fuel =>
      match schedule_producer_first s with
      | Some s' => run_producer_first fuel s'
      | None => s
      end
  end.

(** The file cannot be opened. *)
Definition no_such_file : error := ErrFile "open retail.csv: no such file or directory".

Definition missing_file : Environment :=
  {| gorm_Open := None; db_DB := None;
     table := two_rows;
     outcomes := [];
     retail_csv := {| open_err := Some no_such_file; content := []; close_err := None |} |}.

(** Two lines for the same key, on a table where that key has no
    branch count. *)
Definition same_key_twice : Environment :=
  {| gorm_Open := None; db_DB := None;
     table := two_rows;
     outcomes := [];
     retail_csv := csv [Line ["42"%string; "7"%string]; Line ["42"%string; "8"%string]] |}.

(** * Properties *)

(** ** Decimal numerals and [strconv.ParseInt] *)

Section Numerals.

Local Open Scope string_scope.

Example ParseInt_42 : strconv.ParseInt "42" 10 64 = (42, None).
Proof. reflexivity. Qed.

Example ParseInt_signed : strconv.ParseInt "+17" 10 64 = (17, None).
Proof. reflexivity. Qed.

Example ParseInt_min : strconv.ParseInt "-9223372036854775808" 10 64 = (- 2 ^ 63, None).
Proof. vm_compute. reflexivity. Qed.

Example ParseInt_above_max :
  strconv.ParseInt "9223372036854775808" 10 64 =
  (2 ^ 63 - 1, Some (NumError "ParseInt" "9223372036854775808" ErrRange)).
Proof. vm_compute. reflexivity. Qed.

Example ParseInt_overflow :
  snd (strconv.ParseInt "99999999999999999999999" 10 64) =
  Some (NumError "ParseInt" "99999999999999999999999" ErrRange).
Proof. vm_compute. reflexivity. Qed.

Example ParseInt_trailing : snd (strconv.ParseInt "7x" 10 64) =
  Some (NumError "ParseInt" "7x" ErrSyntax).
Proof. vm_compute. reflexivity. Qed.

Example ParseInt_letter : snd (strconv.ParseInt "a" 10 64) =
  Some (NumError "ParseInt" "a" ErrSyntax).
Proof. vm_compute. reflexivity. Qed.

Example ParseInt_sign_only : snd (strconv.ParseInt "-" 10 64) =
  Some (NumError "ParseInt" "-" ErrSyntax).
Proof. vm_compute. reflexivity. Qed.

End Numerals.

Lemma byte_of_range (c : ascii) : 0 <= strconv.byte_of c < 256.
Proof.
  unfold strconv.byte_of.
  pose proof (N_ascii_bounded c) as H. lia.
Qed.

Lemma digit_of_dec (c : ascii) :
  is_dec_digit c = true ->
  strconv.digit_of c = Some (strconv.byte_of c - 48) /\
  0 <= strconv.byte_of c - 48 <= 9.
Proof.
  unfold is_dec_digit, strconv.digit_of. cbv zeta. intros H. rewrite H.
  apply andb_prop in H. destruct H as [H1 H2].
  apply Z.leb_le in H1. apply Z.leb_le in H2. split; [reflexivity | lia].
Qed.

Lemma dec_value_ge (s : string) : forall acc v,
  0 <= acc -> dec_value acc s = Some v -> acc <= v.
Proof.
  induction s as [| c s IH]; simpl; intros acc v Hacc H.
  - injection H as <-. lia.
  - destruct (is_dec_digit c) eqn:Hc; [| discriminate].
    destruct (digit_of_dec c Hc) as [_ Hd].
    apply IH in H; lia.
Qed.

(** The digit loop computes the value of the numeral whenever that
    value fits 64 bits. *)
Lemma ParseUint_loop_dec (s : string) : forall n v,
  0 <= n -> dec_value n s = Some v -> v <= strconv.maxUint64 ->
  strconv.ParseUint_loop 10 (strconv.maxUint64 / 10 + 1) strconv.maxUint64 s n = (v, None).
Proof.
  induction s as [| c s IH]; simpl; intros n v Hn H Hv.
  - injection H as <-. reflexivity.
  - destruct (is_dec_digit c) eqn:Hc; [| discriminate].
    destruct (digit_of_dec c Hc) as [-> Hd].
    pose proof H as Hle. apply dec_value_ge in Hle; [| lia].
    assert (Hmax : strconv.maxUint64 = 18446744073709551615) by reflexivity.
    assert (Hcut : strconv.maxUint64 / 10 + 1 = 1844674407370955162) by reflexivity.
    rewrite Hcut, Hmax in *.
    destruct (strconv.byte_of c - 48 >=? 10) eqn:E1; [lia |].
    destruct (n >=? 1844674407370955162) eqn:E2; [lia |].
    assert (Hu1 : uint64 (n * 10) = n * 10).
    { unfold uint64. apply Z.mod_small. lia. }
    rewrite Hu1.
    assert (Hu2 : uint64 (n * 10 + (strconv.byte_of c - 48)) = n * 10 + (strconv.byte_of c - 48)).
    { unfold uint64. apply Z.mod_small. lia. }
    rewrite Hu2.
    destruct (n * 10 + (strconv.byte_of c - 48) <? n * 10) eqn:E3; [lia |].
    destruct (n * 10 + (strconv.byte_of c - 48) >? 18446744073709551615) eqn:E4; [lia |].
    simpl. rewrite <- Hcut, <- Hmax. apply IH; [lia | assumption | lia].
Qed.

Lemma ParseUint_dec (s : string) (v : Z) :
  unsigned_value s = Some v -> v <= strconv.maxUint64 ->
  strconv.ParseUint s 10 64 = (v, None).
Proof.
  destruct s as [| c s]; [discriminate |].
  unfold unsigned_value, strconv.ParseUint. intros H Hv.
  change (negb ((2 <=? 10) && (10 <=? 36))) with false.
  change ((64 <? 0) || (64 >? 64)) with false.
  cbv iota beta zeta.
  change (uint64 (uint64 (2 ^ (if 64 =? 0 then 64 else 64)) - 1)) with strconv.maxUint64.
  apply ParseUint_loop_dec; [lia | assumption | assumption].
Qed.

Lemma unsigned_value_nonneg (s : string) (v : Z) :
  unsigned_value s = Some v -> 0 <= v.
Proof.
  destruct s; [discriminate |]. unfold unsigned_value.
  intros H. apply dec_value_ge in H; lia.
Qed.

(** [ParseInt] returns the value of every decimal numeral of the
    64-bit range, without error. *)
Lemma ParseInt_numeral (s : string) (v : Z) :
  numeral_value s = Some v -> in_int64 v ->
  strconv.ParseInt s 10 64 = (v, None).
Proof.
  unfold in_int64. destruct s as [| c s]; [discriminate |].
  unfold numeral_value, strconv.ParseInt. intros H Hv.
  assert (H63 : 2 ^ 63 = 9223372036854775808) by reflexivity.
  assert (H64 : 2 ^ 64 = 18446744073709551616) by reflexivity.
  assert (Hmax : strconv.maxUint64 = 18446744073709551615) by reflexivity.
  change (2 ^ ((if 64 =? 0 then 64 else 64) - 1)) with (2 ^ 63).
  destruct (Ascii.eqb c "+") eqn:Eplus.
  - pose proof (unsigned_value_nonneg _ _ H) as H0.
    rewrite (ParseUint_dec s v H ltac:(lia)).
    cbv iota beta. destruct (v >=? 2 ^ 63) eqn:E; [lia |]. cbn [negb andb].
    f_equal. unfold int64. rewrite Z.mod_small; lia.
  - destruct (Ascii.eqb c "-") eqn:Eminus.
    + destruct (unsigned_value s) as [u |] eqn:Hu; [| discriminate].
      simpl in H. injection H as <-.
      pose proof (unsigned_value_nonneg _ _ Hu) as H0.
      rewrite (ParseUint_dec s u Hu ltac:(lia)).
      cbv iota beta. cbn [negb andb].
      destruct (u >? 2 ^ 63) eqn:E; [lia |].
      f_equal. unfold int64.
      destruct (Z.eq_dec u (2 ^ 63)) as [-> | Hne].
      * vm_compute. reflexivity.
      * rewrite (Z.mod_small (u + 2 ^ 63)) by lia.
        replace (u + 2 ^ 63 - 2 ^ 63) with u by lia.
        rewrite Z.mod_small; lia.
    + pose proof (unsigned_value_nonneg _ _ H) as H0.
      rewrite (ParseUint_dec (String c s) v H ltac:(lia)).
      cbv iota beta. destruct (v >=? 2 ^ 63) eqn:E; [lia |]. cbn [negb andb].
      f_equal. unfold int64. rewrite Z.mod_small; lia.
Qed.

(** The conversion to [int32] keeps the low 32 bits. *)
Lemma int32_range (x : Z) : in_int32 (int32 x).
Proof.
  unfold in_int32, int32.
  pose proof (Z.mod_pos_bound (x + 2 ^ 31) (2 ^ 32) ltac:(lia)). lia.
Qed.

Lemma int32_congruent (x : Z) : int32 x mod 2 ^ 32 = x mod 2 ^ 32.
Proof.
  unfold int32.
  rewrite Zminus_mod, Zmod_mod, <- Zminus_mod.
  f_equal. lia.
Qed.

Lemma int32_small (x : Z) : in_int32 x -> int32 x = x.
Proof.
  unfold in_int32, int32. intros H. rewrite Z.mod_small; lia.
Qed.

(** C9 (as amended).  Field 1 of a line is parsed as a 64-bit integer
    and narrowed to [int32]: for every line whose first two fields are
    decimal numerals of the 64-bit range, the record is sent with the
    key of field 0 and with [branchCount] the value of field 1 reduced
    modulo 2^32 into the signed 32-bit range - the value itself when
    it is in that range, its two's-complement truncation when it is
    not. *)
Theorem fileLoader_narrows_branchCount (merchant : Merchant) (line : list string)
    (f0 f1 : string) (retailerID v : Z) :
  nth_error line 0 = Some f0 ->
  nth_error line 1 = Some f1 ->
  numeral_value f0 = Some retailerID -> in_int64 retailerID ->
  numeral_value f1 = Some v -> in_int64 v ->
  fileLoader_body merchant line None =
    Send {| RetailerID := retailerID; BranchCount := Some (int32 v);
            ExpireAt := ExpireAt merchant |}
  /\ in_int32 (int32 v)
  /\ int32 v mod 2 ^ 32 = v mod 2 ^ 32
  /\ (in_int32 v -> int32 v = v).
Proof.
  intros H0 H1 Hr Hri Hv Hvi.
  split; [| split; [apply int32_range | split; [apply int32_congruent | apply int32_small]]].
  unfold fileLoader_body, index. rewrite H0, H1.
  rewrite (ParseInt_numeral f0 retailerID Hr Hri).
  rewrite (ParseInt_numeral f1 v Hv Hvi). reflexivity.
Qed.

Lemma fileLoader_narrows_branchCount_witness :
  fileLoader_body zero_Merchant ["42"%string; "4294967303"%string] None =
    Send {| RetailerID := 42; BranchCount := Some 7; ExpireAt := 0 |}.
Proof.
  pose proof (fileLoader_narrows_branchCount zero_Merchant
                ["42"%string; "4294967303"%string] "42" "4294967303" 42 4294967303
                eq_refl eq_refl eq_refl
                ltac:(unfold in_int64; lia) eq_refl ltac:(unfold in_int64; lia)) as H.
  destruct H as [H _]. exact H.
Defined.

(** C9, as stated, fails beyond the 64-bit range: the numeral 2^63 in
    field 1 is outside the [int32] range and the line is rejected with
    the range error of [ParseInt]; no record is sent. *)
Lemma fileLoader_rejects_beyond_int64 :
  numeral_value "9223372036854775808" = Some (2 ^ 63) /\
  ~ in_int32 (2 ^ 63) /\
  fileLoader_body zero_Merchant ["42"%string; "9223372036854775808"%string] None =
    Return (NumError "ParseInt" "9223372036854775808" ErrRange)
      [entry ErrorLevel "Error parser Branch Count: %+v"
         [AErr (NumError "ParseInt" "9223372036854775808" ErrRange)]].
Proof.
  split; [vm_compute; reflexivity |].
  split; [unfold in_int32; lia |].
  vm_compute. reflexivity.
Qed.

(** ** The store gateway *)

Lemma matches_cond_of (retailerID : Z) (r : Merchant) :
  matches (cond_of retailerID) r = (RetailerID r =? retailerID).
Proof. reflexivity. Qed.

Lemma find_matches (retailerID : Z) (rs : list Merchant) :
  find (matches (cond_of retailerID)) rs = lookup retailerID rs.
Proof. reflexivity. Qed.

Lemma update_rows_cond_of (retailerID v : Z) (rs : list Merchant) :
  map (update_row (cond_of retailerID) columnName v) rs = write_branch_count retailerID v rs.
Proof.
  unfold write_branch_count. apply map_ext. intros r.
  unfold update_row. rewrite matches_cond_of. reflexivity.
Qed.

Lemma outcome_at_0 (w : World) :
  match faults w with [] => None | f :: _ => f end = outcome_at 0 w.
Proof. unfold outcome_at. destruct (faults w); reflexivity. Qed.

Lemma outcome_at_1 (w : World) :
  match tl (faults w) with [] => None | f :: _ => f end = outcome_at 1 w.
Proof. unfold outcome_at. destruct (faults w) as [| f [| g fs]]; reflexivity. Qed.

Lemma Take_run (d : DB) (retailerID : Z) (w : World) :
  Take (Some d) tableName (cond_of retailerID) zero_Merchant w =
  (Val (match outcome_at 0 w with
        | Some msg => (zero_Merchant, Some (ErrDriver msg))
        | None =>
            match lookup retailerID (rows w) with
            | Some r => (r, None)
            | None => (zero_Merchant, Some ErrRecordNotFound)
            end
        end),
   sent (take_of retailerID) w).
Proof.
  unfold Take, bind, send. rewrite outcome_at_0.
  destruct (outcome_at 0 w) as [msg |]; [reflexivity |].
  change (negb (tableName =? "merchant")%string) with false.
  change (negb (known_column (Column (cond_of retailerID)))) with false.
  cbv iota. unfold get_rows. cbn [rows].
  rewrite find_matches. destruct (lookup retailerID (rows w)); reflexivity.
Qed.

Lemma Update_run (d : DB) (retailerID v : Z) (w : World) :
  Update (Some d) tableName (cond_of retailerID) columnName v w =
  match outcome_at 0 w with
  | Some msg => (Val (Some (ErrDriver msg)), sent (update_of retailerID v) w)
  | None =>
      (Val None,
       stored (write_branch_count retailerID v (rows w)) (sent (update_of retailerID v) w))
  end.
Proof.
  unfold Update, bind, send. rewrite outcome_at_0.
  destruct (outcome_at 0 w) as [msg |]; [reflexivity |].
  change (negb (tableName =? "merchant")%string) with false.
  change (negb (known_column (Column (cond_of retailerID)) && known_column columnName)) with false.
  cbv iota. unfold get_rows, put_rows. cbn [rows faults issued logged].
  rewrite update_rows_cond_of. reflexivity.
Qed.

(** Every call of [updateBranchCount] with an open database follows
    one of the paths. *)
Lemma updateBranchCount_path (d : DB) (retailerID : Z) (branchCount : option Z) (w : World) :
  gateway_path retailerID branchCount w
    (fst (updateBranchCount (Some d) retailerID branchCount w))
    (snd (updateBranchCount (Some d) retailerID branchCount w)).
Proof.
  destruct (updateBranchCount (Some d) retailerID branchCount w) as [res w'] eqn:E.
  cbn [fst snd]. revert E. unfold updateBranchCount.
  change {| Column := "retailer_id"; Value := retailerID |} with (cond_of retailerID).
  unfold bind at 1. rewrite Take_run.
  destruct (outcome_at 0 w) as [msg |] eqn:H0.
  - cbn. intros E. injection E as <- <-. apply lookup_failed. exact H0.
  - destruct (lookup retailerID (rows w)) as [r |] eqn:Hr.
    + destruct (BranchCount r) as [c |] eqn:Hc.
      * cbn. intros E. injection E as <- <-. apply (already_set _ _ _ r c); assumption.
      * destruct branchCount as [v |].
        -- unfold deref. unfold bind, ret, Infof, log.
           rewrite Update_run.
           match goal with |- context [outcome_at 0 ?w'] =>
             replace (outcome_at 0 w') with (outcome_at 1 w)
               by (unfold outcome_at; cbn [faults sent]; destruct (faults w) as [| f [| g fs]]; reflexivity)
           end.
           destruct (outcome_at 1 w) as [msg |] eqn:H1.
           ++ cbn. intros E. injection E as <- <-. apply (update_failed _ _ _ r v msg); auto.
           ++ cbn. intros E. injection E as <- <-. apply (updated _ _ _ r v); auto.
        -- cbn. intros E. injection E as <- <-. apply (nil_branchCount _ _ _ r); auto.
    + cbn. intros E. injection E as <- <-. apply not_found; assumption.
Qed.

(** *** Rows and keys *)

Lemma lookup_some (retailerID : Z) (rs : list Merchant) (r : Merchant) :
  lookup retailerID rs = Some r -> In r rs /\ RetailerID r = retailerID.
Proof.
  unfold lookup. intros H. apply find_some in H. destruct H as [H1 H2].
  apply Z.eqb_eq in H2. split; assumption.
Qed.

Lemma lookup_none (retailerID : Z) (rs : list Merchant) :
  lookup retailerID rs = None <-> (forall r, In r rs -> RetailerID r <> retailerID).
Proof.
  unfold lookup. split.
  - intros H r Hin Heq.
    pose proof (find_none _ _ H r Hin) as Hf. cbv beta in Hf.
    apply Z.eqb_neq in Hf. contradiction.
  - intros H. induction rs as [| x rs IH]; [reflexivity |].
    cbn [find]. destruct (RetailerID x =? retailerID) eqn:E.
    + apply Z.eqb_eq in E. exfalso. apply (H x); [left; reflexivity | exact E].
    + apply IH. intros r Hr. apply H. right. exact Hr.
Qed.

(** With unique keys the row of a key is the only one that has it. *)
Lemma lookup_unique (rs : list Merchant) (r : Merchant) :
  unique_keys rs -> In r rs -> lookup (RetailerID r) rs = Some r.
Proof.
  unfold unique_keys, lookup. induction rs as [| x rs IH]; intros Hu Hin.
  - contradiction.
  - cbn [map] in Hu. inversion Hu as [| k ks Hnot Hrest]; subst.
    cbn [find]. destruct Hin as [-> | Hin].
    + rewrite Z.eqb_refl. reflexivity.
    + destruct (RetailerID x =? RetailerID r) eqn:E.
      * apply Z.eqb_eq in E. exfalso. apply Hnot. rewrite E.
        apply in_map. exact Hin.
      * apply IH; assumption.
Qed.

Lemma write_branch_count_length (retailerID v : Z) (rs : list Merchant) :
  List.length (write_branch_count retailerID v rs) = List.length rs.
Proof. apply length_map. Qed.

Lemma write_branch_count_keys (retailerID v : Z) (rs : list Merchant) :
  map RetailerID (write_branch_count retailerID v rs) = map RetailerID rs.
Proof.
  unfold write_branch_count. rewrite map_map. apply map_ext. intros r.
  destruct (RetailerID r =? retailerID); reflexivity.
Qed.

Lemma updates_app (a b : list StoreOp) : updates (a ++ b) = (updates a + updates b)%nat.
Proof. unfold updates. rewrite filter_app, length_app. reflexivity. Qed.

(** C1.  A record whose key has a row with the branch count absent
    makes [updateBranchCount] send exactly one update, of
    [branch_count] to the record's value for that key, after which the
    table holds that value in the rows of the key and is otherwise as
    before, and the call returns nil; a record whose row has a branch
    count makes it send no update whatever the record's value is, the
    table stays as it was and the call returns nil.  (The statements
    are taken to execute: a failing one is the matter of C8.) *)
Theorem updateBranchCount_conditional_write (d : DB) (w : World) (r : Merchant)
    (retailerID : Z) (branchCount : option Z) :
  unique_keys (rows w) ->
  In r (rows w) ->
  RetailerID r = retailerID ->
  outcome_at 0 w = None ->
  (forall v, BranchCount r = None -> branchCount = Some v -> outcome_at 1 w = None ->
     fst (updateBranchCount (Some d) retailerID branchCount w) = Val None /\
     issued (snd (updateBranchCount (Some d) retailerID branchCount w)) =
       issued w ++ [take_of retailerID; update_of retailerID v] /\
     updates (issued (snd (updateBranchCount (Some d) retailerID branchCount w))) =
       S (updates (issued w)) /\
     rows (snd (updateBranchCount (Some d) retailerID branchCount w)) =
       write_branch_count retailerID v (rows w)) /\
  (forall c, BranchCount r = Some c ->
     fst (updateBranchCount (Some d) retailerID branchCount w) = Val None /\
     issued (snd (updateBranchCount (Some d) retailerID branchCount w)) =
       issued w ++ [take_of retailerID] /\
     updates (issued (snd (updateBranchCount (Some d) retailerID branchCount w))) =
       updates (issued w) /\
     rows (snd (updateBranchCount (Some d) retailerID branchCount w)) = rows w).
Proof.
  intros Hu Hin Hk H0.
  assert (Hl : lookup retailerID (rows w) = Some r).
  { rewrite <- Hk. apply lookup_unique; assumption. }
  pose proof (updateBranchCount_path d retailerID branchCount w) as P.
  split.
  - intros v Hb Hv H1.
    inversion P as [msg E0 | E0 El | r' c E0 El Ec | r' E0 El Ec Eb
                   | r' v' msg E0 El Ec Eb E1 | r' v' E0 El Ec Eb E1];
      try congruence.
    assert (v' = v) by congruence. subst v'.
    split; [reflexivity |]. cbn [issued rows stored sent logs].
    split; [rewrite <- app_assoc; reflexivity |].
    split; [| reflexivity].
    rewrite !updates_app. cbn. lia.
  - intros c Hb.
    inversion P as [msg E0 | E0 El | r' c' E0 El Ec | r' E0 El Ec Eb
                   | r' v' msg E0 El Ec Eb E1 | r' v' E0 El Ec Eb E1];
      try congruence.
    split; [reflexivity |]. cbn [issued rows stored sent logs].
    split; [reflexivity |]. split; [| reflexivity].
    rewrite updates_app. cbn. lia.
Qed.

(** ** The pipeline *)

Lemma consume_all_app (d : option DB) (a b : list Merchant) (w : World) :
  consume_all d (a ++ b) w =
  match consume_all d a w with
  | (Val _, w') => consume_all d b w'
  | (Panic why, w') => (Panic why, w')
  end.
Proof.
  revert w. induction a as [| m a IH]; intros w.
  - reflexivity.
  - cbn [app consume_all]. unfold bind.
    destruct (consume d m w) as [[[] | why] w1]; [apply IH | reflexivity].
Qed.

Lemma consume_all_one (d : option DB) (m : Merchant) (w : World) :
  consume_all d [m] w = consume d m w.
Proof.
  cbn [consume_all]. unfold bind, ret.
  destruct (consume d m w) as [[[] | why] w1]; reflexivity.
Qed.

Lemma fileLoader_body_EOF (m : Merchant) : fileLoader_body m [] (Some EOF) = Break.
Proof. reflexivity. Qed.

Lemma Inv_initial (s0 : Sys) : initial s0 -> Inv s0 s0.
Proof.
  intros [Hr Hp Hl Hw Hc Hco Hm Hcr].
  constructor; try reflexivity; try assumption.
  - unfold heads_for. rewrite Hp. split; reflexivity.
  - unfold returned. rewrite Hp. exact Hw.
  - intros _. exact Hr.
  - intros _. split; assumption.
  - unfold finished. rewrite Hco. discriminate.
  - rewrite Hm, Hco. split; discriminate.
  - exists [], (world s0). unfold pending, in_hand, finished. rewrite Hco.
    repeat split; reflexivity.
Qed.

Lemma handleMerchant_start_initial (env : Environment) :
  initial (handleMerchant_start env).
Proof.
  unfold handleMerchant_start. destruct (newDB env) as [d err].
  constructor; reflexivity.
Qed.

(** *** The moves of the producer *)

Lemma producer_step_effect (s s' : Sys) :
  producer_step s = Some s' ->
  crashed s = None -> crashed s' = None ->
  wg s = 1 -> plog s = [] -> pipe_closed s = false ->
  (producer s = POpen -> reader s = []) ->
  returned s = false ->
  future s' = future s /\
  db s' = db s /\ world s' = world s /\ file s' = file s /\ mlog s' = mlog s /\
  consumer s' = consumer s /\ main s' = main s /\ pipe_closed s' = pipe_closed s /\
  wg s' = (if returned s' then 0 else 1) /\
  (returned s' = false -> plog s' = []) /\
  producer s' <> POpen /\
  (forall err, producer s' <> PExit err).
Proof.
  destruct s as [d w f rd p pl wgv pc c mn ml cr]. cbn.
  intros Hstep Hcr Hcr' Hwg Hpl Hpc Hopen Hret. subst cr wgv pl pc.
  unfold producer_step in Hstep. cbn in Hstep.
  destruct p as [| m | m | err | err].
  - (* os.Open *)
    rewrite (Hopen eq_refl) in *. unfold future, fileLoader. cbn [producer file].
    destruct (open_err f) as [e |] eqn:Ho.
    + injection Hstep as <-. cbn. repeat split; solve [reflexivity | easy | rewrite <- app_assoc; reflexivity].
    + injection Hstep as <-. cbn.
      repeat split; solve [reflexivity | easy | rewrite <- app_assoc; reflexivity].
  - (* an iteration of the loop *)
    unfold future. cbn [producer file reader].
    destruct rd as [| [fields | e] rest].
    + cbn in Hstep. injection Hstep as <-. cbn. rewrite ?app_nil_r.
      repeat split; solve [reflexivity | easy | rewrite <- app_assoc; reflexivity].
    + cbn [Read] in Hstep. cbn [fileLoader_loop Read].
      destruct (fileLoader_body m fields None) as [| e logs | m' | why] eqn:Hb.
      * injection Hstep as <-. cbn. rewrite ?app_nil_r.
        repeat split; solve [reflexivity | easy | rewrite <- app_assoc; reflexivity].
      * injection Hstep as <-. cbn.
        repeat split; solve [reflexivity | easy | rewrite <- app_assoc; reflexivity].
      * injection Hstep as <-. cbn.
        destruct (fileLoader_loop f m' rest) as [[ms e'] u].
        repeat split; solve [reflexivity | easy | rewrite <- app_assoc; reflexivity].
      * injection Hstep as <-. cbn in Hcr'. discriminate.
    + cbn [Read] in Hstep. cbn [fileLoader_loop Read].
      destruct (fileLoader_body m [] (Some e)) as [| e' logs | m' | why] eqn:Hb.
      * injection Hstep as <-. cbn. rewrite ?app_nil_r.
        repeat split; solve [reflexivity | easy | rewrite <- app_assoc; reflexivity].
      * injection Hstep as <-. cbn.
        repeat split; solve [reflexivity | easy | rewrite <- app_assoc; reflexivity].
      * unfold fileLoader_body in Hb. destruct (is_EOF e); discriminate.
      * injection Hstep as <-. cbn in Hcr'. discriminate.
  - discriminate.
  - discriminate.
  - discriminate.
Qed.

Lemma step_alive (s s' : Sys) : step s s' -> alive s = true.
Proof. intros [H _ | H _ | H _ | H _ | H _]; exact H. Qed.

Lemma alive_inv (s : Sys) : alive s = true -> crashed s = None /\ main s = MWaitDone.
Proof.
  unfold alive. destruct (crashed s); [discriminate |].
  destruct (main s); [auto | discriminate].
Qed.

(** *** Every step keeps the invariant *)

Ltac on_fields H :=
  cbn [db world file reader producer plog wg pipe_closed consumer main mlog crashed] in H.

Lemma Inv_step (s0 s s' : Sys) :
  Inv s0 s -> step s s' -> crashed s' = None -> Inv s0 s'.
Proof.
  intros [Idb Ifile Imlog Icr Ifut Iwg Iopen Irun Ifin Imain Iworld] Hs Hc.
  destruct Hs as [Ha H | Ha H | Ha H | Ha H | Ha H].
  - (* the producer moves *)
    assert (Hdec : returned s = true \/ returned s = false)
      by (destruct (returned s); auto).
    destruct Hdec as [Hret | Hret].
    + (* the goroutine of fileLoader logs the error and ends *)
      set (F0 := future s0) in *.
      destruct s as [d w f rd p pl wgv pc c mn ml cr].
      unfold producer_step in H. on_fields H.
      unfold returned, finished, pending, in_hand, future, heads_for
        in Hret, Ifut, Iwg, Iopen, Irun, Ifin, Imain, Iworld.
      cbn in Idb, Ifile, Imlog, Icr, Hret, Ifut, Iwg, Iopen, Irun, Ifin, Imain, Iworld.
      destruct p as [| m | m | err | err]; try discriminate Hret; try discriminate H.
      injection H as <-. destruct Ifut as [Ie Iu].
      constructor; fold F0;
        unfold returned, finished, pending, in_hand, future, heads_for; cbn;
        try assumption; try discriminate; auto.
      exists pl. auto.
    + destruct (Irun Hret) as [Hpl Hpc]. rewrite Hret in Iwg.
      destruct (producer_step_effect s s' H Icr Hc Iwg Hpl Hpc Iopen Hret)
        as (F & D & W & Fi & Ml & C & Mn & Pc & Wg & Pl & NotOpen & NotExit).
      assert (Hfut : snd (fst (future s)) = snd (fst (future s0)) /\
                     snd (future s) = snd (future s0)).
      { unfold heads_for in Ifut. unfold returned in Hret.
        destruct (producer s); try exact Ifut; discriminate Hret. }
      constructor.
      * congruence.
      * congruence.
      * congruence.
      * exact Hc.
      * unfold heads_for. rewrite F.
        destruct (producer s') as [| | | |err] eqn:Hp'; try exact Hfut.
        exfalso. apply (NotExit err). reflexivity.
      * exact Wg.
      * intros X. contradiction (NotOpen X).
      * intros Hr. split; [auto | congruence].
      * unfold finished in *. rewrite C. rewrite Pc. exact Ifin.
      * rewrite Mn, C. exact Imain.
      * destruct Iworld as (treated & w & E1 & E2 & E3).
        exists treated, w. unfold pending, in_hand, finished in *.
        rewrite C, F, W. auto.
  - (* the record passes from the producer to the consumer *)
    unfold handoff in H.
    destruct (producer s) as [| m | m | err | err] eqn:Hp; try discriminate H.
    destruct (consumer s) eqn:Hco; try discriminate H.
    destruct (pipe_closed s) eqn:Hpc; [discriminate H |].
    injection H as <-.
    destruct (Irun ltac:(unfold returned; rewrite Hp; reflexivity)) as [Hpl _].
    unfold heads_for, future in Ifut. rewrite Hp in Ifut.
    unfold returned in Iwg. rewrite Hp in Iwg.
    destruct Iworld as (treated & w & E1 & E2 & E3).
    unfold pending, in_hand, finished, future in E1, E3. rewrite Hp, Hco in *.
    destruct (fileLoader_loop (file s) m (reader s)) as [[ms e] u] eqn:Hl.
    constructor; cbn; try assumption; try discriminate.
    + unfold heads_for, future. cbn. rewrite Hl. exact Ifut.
    + auto.
    + split; [intros X | intros X; discriminate X].
      apply Imain in X. discriminate X.
    + exists treated, w. unfold pending, in_hand, finished, future. cbn.
      rewrite Hl. auto.
  - (* the consumer moves *)
    set (F0 := future s0) in *.
    destruct s as [d w f rd p pl wgv pc c mn ml cr].
    unfold consumer_step in H. on_fields H.
    unfold returned, finished, pending, in_hand, future, heads_for
      in Ifut, Iwg, Iopen, Irun, Ifin, Imain, Iworld.
    cbn in Idb, Ifile, Imlog, Icr, Ifut, Iwg, Iopen, Irun, Ifin, Imain, Iworld.
    destruct Iworld as (treated & w' & E1 & E2 & E3).
    destruct c as [| m | |]; try discriminate H.
    + (* the channel is closed *)
      destruct pc; [| discriminate H].
      injection H as <-.
      destruct p as [| m | m | err | err];
        try (destruct (Irun eq_refl) as [_ X]; discriminate X).
      * constructor; fold F0;
          unfold returned, finished, pending, in_hand, future, heads_for; cbn;
          try assumption; try discriminate; auto.
        -- split; [intros X | intros X; discriminate X].
           apply Imain in X. discriminate X.
        -- exists treated, w'. repeat split; auto. rewrite E3. reflexivity.
      * constructor; fold F0;
          unfold returned, finished, pending, in_hand, future, heads_for; cbn;
          try assumption; try discriminate; auto.
        -- split; [intros X | intros X; discriminate X].
           apply Imain in X. discriminate X.
        -- exists treated, w'. repeat split; auto. rewrite E3. reflexivity.
    + (* a record is treated *)
      destruct (consume d m w) as [[[] | why] w1] eqn:Hcons;
        injection H as <-; [| discriminate Hc].
      constructor; fold F0;
        unfold returned, finished, pending, in_hand, future, heads_for; cbn;
        try assumption; try discriminate; auto.
      * split; [intros X | intros X; discriminate X].
        apply Imain in X. discriminate X.
      * exists (treated ++ [m]), w1.
        repeat split.
        -- rewrite <- app_assoc. exact E1.
        -- rewrite consume_all_app, E2, consume_all_one.
           rewrite <- Idb, <- E3. exact Hcons.
  - (* the channel is closed after wg.Wait *)
    set (F0 := future s0) in *.
    destruct s as [d w f rd p pl wgv pc c mn ml cr].
    unfold closer_step in H. on_fields H.
    unfold returned, finished, pending, in_hand, future, heads_for
      in Ifut, Iwg, Iopen, Irun, Ifin, Imain, Iworld.
    cbn in Idb, Ifile, Imlog, Icr, Ifut, Iwg, Iopen, Irun, Ifin, Imain, Iworld.
    destruct ((wgv =? 0) && negb pc) eqn:E; [| discriminate H].
    injection H as <-. apply andb_prop in E. destruct E as [Ew _].
    apply Z.eqb_eq in Ew.
    destruct p as [| m | m | err | err]; try (rewrite Ew in Iwg; discriminate Iwg).
    + constructor; fold F0;
        unfold returned, finished, pending, in_hand, future, heads_for; cbn;
        try assumption; try discriminate; auto.
    + constructor; fold F0;
        unfold returned, finished, pending, in_hand, future, heads_for; cbn;
        try assumption; try discriminate; auto.
  - (* done <- true meets <-done *)
    set (F0 := future s0) in *.
    destruct s as [d w f rd p pl wgv pc c mn ml cr].
    unfold done_step in H. on_fields H.
    unfold returned, finished, pending, in_hand, future, heads_for
      in Ifut, Iwg, Iopen, Irun, Ifin, Imain, Iworld.
    cbn in Idb, Ifile, Imlog, Icr, Ifut, Iwg, Iopen, Irun, Ifin, Imain, Iworld.
    destruct c; try discriminate H.
    destruct mn; try discriminate H.
    injection H as <-.
    constructor; fold F0;
      unfold returned, finished, pending, in_hand, future, heads_for; cbn;
      try assumption; try discriminate; auto.
    split; reflexivity.
Qed.

(** *** Executions *)

Lemma steps_refl (s : Sys) : steps s s.
Proof. constructor 1. Qed.

Lemma steps_step (s s' s'' : Sys) : step s s' -> steps s' s'' -> steps s s''.
Proof. intros H1 H2. econstructor 2; eassumption. Qed.

Lemma steps_trans (s s' s'' : Sys) : steps s s' -> steps s' s'' -> steps s s''.
Proof.
  intros H1 H2. induction H1 as [| x y z Hxy Hyz IH]; [assumption |].
  eapply steps_step; [exact Hxy | apply IH; assumption].
Qed.

Lemma steps_not_alive (s s' : Sys) : steps s s' -> alive s = false -> s' = s.
Proof.
  intros H Ha. destruct H as [| y z Hxy _]; [reflexivity |].
  apply step_alive in Hxy. congruence.
Qed.

Lemma steps_crashed (s s' : Sys) : steps s s' -> crashed s' = None -> crashed s = None.
Proof.
  intros H Hc. destruct H as [| y z Hxy _]; [assumption |].
  apply step_alive in Hxy. apply alive_inv in Hxy. tauto.
Qed.

Lemma Inv_steps (s0 s s' : Sys) :
  Inv s0 s -> steps s s' -> crashed s' = None -> Inv s0 s'.
Proof.
  intros I H. induction H as [| x y z Hxy Hyz IH]; intros Hc; [assumption |].
  apply IH; [| assumption].
  apply (Inv_step s0 x y I Hxy). apply (steps_crashed y z Hyz Hc).
Qed.

(** Every state an execution reaches without a crash satisfies the
    invariant. *)
Lemma reachable_Inv (s0 s : Sys) :
  initial s0 -> steps s0 s -> crashed s = None -> Inv s0 s.
Proof.
  intros Hi H Hc. apply (Inv_steps s0 s0 s); [apply Inv_initial |  |]; assumption.
Qed.

(** A crash leaves [handleMerchant] waiting: it never returns after
    one. *)
Lemma step_crashed_waiting (s s' : Sys) :
  step s s' -> crashed s' = None \/ main s' = MWaitDone.
Proof.
  intros H. pose proof (step_alive s s' H) as Ha. apply alive_inv in Ha.
  destruct Ha as [Hcr Hm].
  destruct s as [d w f rd p pl wgv pc c mn ml cr]. cbn in Hcr, Hm. subst cr mn.
  destruct H as [_ H | _ H | _ H | _ H | _ H].
  - unfold producer_step in H. on_fields H.
    destruct p as [| m | m | err | err]; try discriminate H.
    + destruct (open_err f); injection H as <-; right;
        unfold producer_return, wg_Done; cbn;
        destruct (wgv - 1 <? 0); reflexivity.
    + destruct (Read rd) as [[line err] rest].
      destruct (fileLoader_body m line err); injection H as <-; right;
        unfold producer_return, producer_panic, wg_Done; cbn;
        try (destruct (wgv - 1 <? 0)); reflexivity.
    + destruct pc; [| discriminate H]. injection H as <-. right.
      unfold producer_panic, wg_Done; cbn. destruct (wgv - 1 <? 0); reflexivity.
    + injection H as <-. right. reflexivity.
  - unfold handoff in H. on_fields H.
    destruct p; try discriminate H. destruct c; try discriminate H.
    destruct pc; [discriminate H |]. injection H as <-. left. reflexivity.
  - unfold consumer_step in H. on_fields H.
    destruct c as [| m | |]; try discriminate H.
    + destruct pc; [| discriminate H]. injection H as <-. left. reflexivity.
    + destruct (consume d m w) as [[[] | why] w1]; injection H as <-;
        right; reflexivity.
  - unfold closer_step in H. on_fields H.
    destruct ((wgv =? 0) && negb pc); [| discriminate H].
    injection H as <-. left. reflexivity.
  - unfold done_step in H. on_fields H.
    destruct c; try discriminate H. injection H as <-. left. reflexivity.
Qed.

Lemma steps_crashed_waiting (s s' : Sys) :
  steps s s' -> crashed s = None \/ main s = MWaitDone ->
  crashed s' = None \/ main s' = MWaitDone.
Proof.
  intros H. induction H as [| x y z Hxy Hyz IH]; intros Hx; [assumption |].
  apply IH. apply (step_crashed_waiting x y Hxy).
Qed.

Lemma returned_not_crashed (s0 s : Sys) :
  initial s0 -> steps s0 s -> main s = MReturned -> crashed s = None.
Proof.
  intros Hi H Hm.
  destruct (steps_crashed_waiting s0 s H) as [X | X].
  - left. apply (init_crashed s0 Hi).
  - exact X.
  - congruence.
Qed.

(** *** Complete executions

    When [handleMerchant] returns, whatever the schedule was, the
    consumer has treated every record the file yields, in order,
    [fileLoader] has returned and the channel is closed; the goroutine
    of [fileLoader] has logged the error it returned, or has not come
    to it. *)
Lemma returned_state (s0 s : Sys) :
  initial s0 -> steps s0 s -> main s = MReturned ->
  exists (w : World) (err : option error) (ls : list LogEntry),
    consume_all (db s0) (fst (fst (fileLoader (file s0)))) (world s0) = (Val tt, w) /\
    world s = logs done_entry w /\
    snd (fst (fileLoader (file s0))) = Returned err ls /\
    reader s = snd (fileLoader (file s0)) /\
    (producer s = PReturned err /\ plog s = ls \/
     producer s = PExit err /\ plog s = ls ++ report err) /\
    consumer s = CExit /\
    pipe_closed s = true /\
    wg s = 0 /\
    db s = db s0 /\ file s = file s0 /\ mlog s = mlog s0 /\ crashed s = None.
Proof.
  intros Hi H Hm.
  pose proof (returned_not_crashed s0 s Hi H Hm) as Hc.
  destruct (reachable_Inv s0 s Hi H Hc)
    as [Idb Ifile Imlog Icr Ifut Iwg Iopen Irun Ifin Imain Iworld].
  assert (F0 : future s0 = fileLoader (file s0)).
  { unfold future. rewrite (init_producer s0 Hi). reflexivity. }
  rewrite F0 in *.
  apply Imain in Hm.
  assert (Hfin : finished s = true) by (unfold finished; rewrite Hm; reflexivity).
  pose proof (Ifin Hfin) as Hpc.
  assert (Hret : returned s = true).
  { destruct (returned s) eqn:E; [reflexivity |].
    destruct (Irun eq_refl) as [_ X]. congruence. }
  rewrite Hret in Iwg.
  destruct Iworld as (treated & w & E1 & E2 & E3).
  unfold pending, in_hand in E1. rewrite Hfin in E3. rewrite Hm in E1.
  unfold returned in Hret. unfold heads_for, future in Ifut. unfold future in E1.
  destruct (producer s) as [| m | m | err | err] eqn:Hp; try discriminate Hret;
    cbn in Ifut, E1; rewrite app_nil_r in E1.
  - destruct Ifut as [Ie Iu].
    exists w, err, (plog s). rewrite E1.
    repeat split; auto.
  - destruct Ifut as (ls & Ie & Ipl & Iu).
    exists w, err, ls. rewrite E1.
    repeat split; auto.
Qed.

(** Two complete executions from the same start agree on the world
    they leave and on the input they leave unread. *)
Lemma returned_unique (s0 s1 s2 : Sys) :
  initial s0 -> steps s0 s1 -> steps s0 s2 ->
  main s1 = MReturned -> main s2 = MReturned ->
  world s1 = world s2 /\ reader s1 = reader s2.
Proof.
  intros Hi H1 H2 M1 M2.
  destruct (returned_state s0 s1 Hi H1 M1) as (w1 & e1 & l1 & A1 & A2 & A3 & A4 & _).
  destruct (returned_state s0 s2 Hi H2 M2) as (w2 & e2 & l2 & B1 & B2 & B3 & B4 & _).
  split; congruence.
Qed.

(** *** No crash without a panic in the sequential reading *)

Lemma step_panic_free (s0 s s' : Sys) :
  initial s0 -> panic_free s0 -> Inv s0 s -> step s s' -> crashed s' = None.
Proof.
  intros Hi [[err0 [logs0 Hend]] [wf Hall]]
    [Idb Ifile Imlog Icr Ifut Iwg Iopen Irun Ifin Imain Iworld] H.
  assert (F0 : future s0 = fileLoader (file s0)).
  { unfold future. rewrite (init_producer s0 Hi). reflexivity. }
  rewrite F0 in *. rewrite Hend in Ifut.
  destruct s as [d w f rd p pl wgv pc c mn ml cr].
  cbn in Idb, Ifile, Imlog, Icr. subst cr.
  destruct H as [_ H | _ H | _ H | _ H | _ H].
  - unfold producer_step in H. on_fields H.
    unfold returned, heads_for, future in Iwg, Irun, Ifut. cbn in Iwg, Irun, Ifut.
    destruct p as [| m | m | err | err]; try discriminate H;
      [ | | | injection H as <-; reflexivity];
      destruct Ifut as [Iend _].
    + subst wgv. destruct (open_err f); injection H as <-; reflexivity.
    + subst wgv. destruct rd as [| r rest].
      * cbn in H. injection H as <-. reflexivity.
      * cbn [fileLoader_loop] in Iend.
        destruct (Read (r :: rest)) as [[line err] rest'] eqn:HR.
        destruct (fileLoader_body m line err) as [| e logs | m' | why];
          injection H as <-; try reflexivity.
        cbn in Iend. discriminate Iend.
    + destruct (Irun eq_refl) as [_ X]. cbn in X. subst pc. discriminate H.
  - unfold handoff in H. on_fields H.
    destruct p; try discriminate H. destruct c; try discriminate H.
    destruct pc; [discriminate H |]. injection H as <-. reflexivity.
  - unfold consumer_step in H. on_fields H.
    destruct c as [| m | |]; try discriminate H.
    + destruct pc; [| discriminate H]. injection H as <-. reflexivity.
    + destruct Iworld as (treated & w' & E1 & E2 & E3).
      unfold pending, in_hand, finished in E1, E3. cbn in E1, E3. subst w'.
      rewrite E1 in Hall. rewrite consume_all_app, E2 in Hall.
      cbn [app consume_all] in Hall. unfold bind in Hall. rewrite <- Idb in Hall.
      destruct (consume d m w) as [[[] | why] w1]; injection H as <-;
        [reflexivity | discriminate Hall].
  - unfold closer_step in H. on_fields H.
    destruct ((wgv =? 0) && negb pc); [| discriminate H].
    injection H as <-. reflexivity.
  - unfold done_step in H. on_fields H.
    destruct c; try discriminate H. destruct mn; try discriminate H.
    injection H as <-. reflexivity.
Qed.

Lemma steps_panic_free (s0 s : Sys) :
  initial s0 -> panic_free s0 -> steps s0 s -> crashed s = None /\ Inv s0 s.
Proof.
  intros Hi Hp H.
  assert (G : forall x, Inv s0 x -> steps x s -> crashed s = None /\ Inv s0 s).
  { clear H. intros x I H. induction H as [| x y z Hxy Hyz IH].
    - split; [apply (inv_crashed s0 x I) | exact I].
    - apply IH. apply (Inv_step s0 x y I Hxy).
      apply (step_panic_free s0 x y Hi Hp I Hxy). }
  apply (G s0); [apply Inv_initial; exact Hi | exact H].
Qed.

(** *** Progress and termination *)

(** No deadlock: while the process is alive some goroutine can move. *)
Lemma progress (s0 s : Sys) :
  Inv s0 s -> alive s = true -> exists s', step s s'.
Proof.
  intros [Idb Ifile Imlog Icr Ifut Iwg Iopen Irun Ifin Imain Iworld] Ha.
  destruct (producer s) as [| m | m | err | err] eqn:Hp.
  - destruct (producer_step s) as [s' |] eqn:E.
    + exists s'. apply step_producer; assumption.
    + unfold producer_step in E. rewrite Hp in E.
      destruct (open_err (file s)); discriminate E.
  - destruct (producer_step s) as [s' |] eqn:E.
    + exists s'. apply step_producer; assumption.
    + unfold producer_step in E. rewrite Hp in E.
      destruct (Read (reader s)) as [[line err] rest].
      destruct (fileLoader_body m line err); discriminate E.
  - assert (Hpc : pipe_closed s = false).
    { apply Irun. unfold returned. rewrite Hp. reflexivity. }
    destruct (consumer s) as [| m' | |] eqn:Hco.
    + eexists. apply step_handoff; [assumption |].
      unfold handoff. rewrite Hp, Hco, Hpc. reflexivity.
    + destruct (consumer_step s) as [s' |] eqn:E.
      * exists s'. apply step_consumer; assumption.
      * unfold consumer_step in E. rewrite Hco in E.
        destruct (consume (db s) m' (world s)) as [[[] | why] w1]; discriminate E.
    + assert (X : pipe_closed s = true) by (apply Ifin; unfold finished; rewrite Hco; reflexivity).
      congruence.
    + assert (X : pipe_closed s = true) by (apply Ifin; unfold finished; rewrite Hco; reflexivity).
      congruence.
  - eexists. apply step_producer; [assumption |].
    unfold producer_step. rewrite Hp. reflexivity.
  - unfold returned in Iwg. rewrite Hp in Iwg.
    destruct (pipe_closed s) eqn:Hpc.
    + destruct (consumer s) as [| m' | |] eqn:Hco.
      * eexists. apply step_consumer; [assumption |].
        unfold consumer_step. rewrite Hco, Hpc. reflexivity.
      * destruct (consumer_step s) as [s' |] eqn:E.
        -- exists s'. apply step_consumer; assumption.
        -- unfold consumer_step in E. rewrite Hco in E.
           destruct (consume (db s) m' (world s)) as [[[] | why] w1]; discriminate E.
      * apply alive_inv in Ha. destruct Ha as [_ Hm].
        eexists. apply step_done; [unfold alive; rewrite Icr, Hm; reflexivity |].
        unfold done_step. rewrite Hco, Hm. reflexivity.
      * apply alive_inv in Ha. destruct Ha as [_ Hm].
        assert (X : main s = MReturned) by (apply Imain; reflexivity).
        congruence.
    + eexists. apply step_closer; [assumption |].
      unfold closer_step. rewrite Iwg, Hpc. reflexivity.
Qed.

(** Every step brings the end nearer. *)
Lemma step_weight (s s' : Sys) : step s s' -> (weight s' < weight s)%nat.
Proof.
  intros H. pose proof (step_alive s s' H) as Ha.
  unfold weight at 2. rewrite Ha. apply alive_inv in Ha.
  destruct Ha as [Hcr Hm].
  destruct s as [d w f rd p pl wgv pc c mn ml cr]. cbn in Hcr, Hm. subst cr mn.
  unfold weight, alive, producer_weight, consumer_weight.
  destruct H as [_ H | _ H | _ H | _ H | _ H].
  - unfold producer_step in H. on_fields H.
    destruct p as [| m | m | err | err]; try discriminate H;
      [ | | | injection H as <-; cbn; lia].
    + destruct (open_err f); injection H as <-;
        unfold producer_return, wg_Done; cbn;
        destruct (wgv - 1 <? 0); cbn; destruct pc; lia.
    + destruct rd as [| [fields | e] rest]; cbn [Read] in H;
        [rewrite fileLoader_body_EOF in H | |];
        try match type of H with
        | context [fileLoader_body ?a ?b ?c] => destruct (fileLoader_body a b c)
        end;
        injection H as <-;
        unfold producer_return, producer_panic, wg_Done; cbn;
        try (destruct (wgv - 1 <? 0)); cbn; destruct pc; lia.
    + destruct pc; [| discriminate H]. injection H as <-.
      unfold producer_panic, wg_Done; cbn. destruct (wgv - 1 <? 0); cbn; lia.
  - unfold handoff in H. on_fields H.
    destruct p; try discriminate H. destruct c; try discriminate H.
    destruct pc; [discriminate H |]. injection H as <-. cbn. lia.
  - unfold consumer_step in H. on_fields H.
    destruct c as [| m | |]; try discriminate H.
    + destruct pc; [| discriminate H]. injection H as <-. cbn.
      destruct p; lia.
    + destruct (consume d m w) as [[[] | why] w1]; injection H as <-; cbn;
        destruct pc; destruct p; lia.
  - unfold closer_step in H. on_fields H.
    destruct pc; [rewrite andb_false_r in H; discriminate H |].
    destruct (wgv =? 0); [| discriminate H].
    injection H as <-. cbn. destruct p; destruct c; lia.
  - unfold done_step in H. on_fields H.
    destruct c; try discriminate H. injection H as <-. cbn. lia.
Qed.

(** There is no infinite execution. *)
Lemma step_well_founded : well_founded (fun s' s => step s s').
Proof.
  apply (well_founded_lt_compat Sys weight). intros x y H.
  apply step_weight. exact H.
Qed.

(** The length of an execution is bounded by the weight of its start. *)
Lemma steps_weight (s s' : Sys) : steps s s' -> (weight s' <= weight s)%nat.
Proof.
  intros H. induction H as [| x y z Hxy Hyz IH]; [lia |].
  apply step_weight in Hxy. lia.
Qed.

(** *** The scheduled run *)

Lemma schedule_step (s s' : Sys) : schedule s = Some s' -> step s s'.
Proof.
  unfold schedule. destruct (alive s) eqn:Ha; [| discriminate].
  destruct (handoff s) eqn:E1.
  { intros H. injection H as <-. apply step_handoff; assumption. }
  destruct (consumer_step s) eqn:E2.
  { intros H. injection H as <-. apply step_consumer; assumption. }
  destruct (producer_step s) eqn:E3.
  { intros H. injection H as <-. apply step_producer; assumption. }
  destruct (closer_step s) eqn:E4.
  { intros H. injection H as <-. apply step_closer; assumption. }
  intros H. apply step_done; assumption.
Qed.

Lemma step_schedule (s s' : Sys) : step s s' -> schedule s <> None.
Proof.
  intros H. unfold schedule.
  rewrite (step_alive s s' H).
  destruct (handoff s) eqn:E1; [discriminate |].
  destruct (consumer_step s) eqn:E2; [discriminate |].
  destruct (producer_step s) eqn:E3; [discriminate |].
  destruct (closer_step s) eqn:E4; [discriminate |].
  destruct H as [_ H | _ H | _ H | _ H | _ H]; congruence.
Qed.

Lemma run_steps (n : nat) (s : Sys) : steps s (run n s).
Proof.
  revert s. induction n as [| n IH]; intros s; cbn [run].
  - apply steps_refl.
  - destruct (schedule s) as [s' |] eqn:E; [| apply steps_refl].
    apply (steps_step s s'); [apply schedule_step; exact E | apply IH].
Qed.

Lemma run_stuck (n : nat) (s : Sys) :
  (weight s <= n)%nat -> schedule (run n s) = None.
Proof.
  revert s. induction n as [| n IH]; intros s Hw; cbn [run].
  - unfold schedule. unfold weight in Hw.
    destruct (alive s); [lia | reflexivity].
  - destruct (schedule s) as [s' |] eqn:E; [| exact E].
    apply IH. apply schedule_step, step_weight in E. lia.
Qed.

(** Every execution can be continued to the end of the process. *)
Lemma steps_to_end (s0 s : Sys) :
  initial s0 -> steps s0 s ->
  steps s (run (weight s) s) /\ alive (run (weight s) s) = false.
Proof.
  intros Hi H. split; [apply run_steps |].
  pose proof (run_stuck (weight s) s (le_n _)) as Hstuck.
  set (t := run (weight s) s) in *.
  destruct (alive t) eqn:Ha; [| reflexivity].
  exfalso.
  assert (I : Inv s0 t).
  { apply (reachable_Inv s0 t Hi).
    - apply (steps_trans s0 s t H). apply run_steps.
    - apply alive_inv in Ha. tauto. }
  destruct (progress s0 t I Ha) as [t' Ht].
  apply (step_schedule t t' Ht). exact Hstuck.
Qed.

Lemma handleMerchant_runs (env : Environment) :
  steps (handleMerchant_start env) (handleMerchant env) /\
  alive (handleMerchant env) = false.
Proof.
  apply (steps_to_end (handleMerchant_start env)).
  - apply handleMerchant_start_initial.
  - apply steps_refl.
Qed.

Lemma ended_returned (s : Sys) :
  alive s = false -> crashed s = None -> main s = MReturned.
Proof.
  unfold alive. intros H Hc. rewrite Hc in H.
  destruct (main s); [discriminate | reflexivity].
Qed.

(** Without a panic in the sequential reading every schedule ends by
    [handleMerchant] returning, with the world and the unread input
    of the scheduled run. *)
Lemma pipeline_deterministic (env : Environment) (s : Sys) :
  panic_free (handleMerchant_start env) ->
  steps (handleMerchant_start env) s -> alive s = false ->
  main s = MReturned /\
  world s = world (handleMerchant env) /\ reader s = reader (handleMerchant env).
Proof.
  intros Hp H Ha.
  pose proof (handleMerchant_start_initial env) as Hi.
  destruct (handleMerchant_runs env) as [H' Ha'].
  destruct (steps_panic_free _ _ Hi Hp H) as [Hc _].
  destruct (steps_panic_free _ _ Hi Hp H') as [Hc' _].
  pose proof (ended_returned _ Ha Hc) as Hm.
  pose proof (ended_returned _ Ha' Hc') as Hm'.
  split; [exact Hm |].
  apply (returned_unique (handleMerchant_start env)); assumption.
Qed.

(** ** The treatment of a record *)

Lemma updateBranchCount_nil (retailerID : Z) (branchCount : option Z) (w : World) :
  updateBranchCount None retailerID branchCount w = (Panic nil_dereference, w).
Proof. reflexivity. Qed.

Lemma consume_run (d : option DB) (m : Merchant) (w : World) :
  consume d m w =
  match updateBranchCount d (RetailerID m) (BranchCount m) (logs (handle_entry m) w) with
  | (Val (Some err), w1) => (Val tt, logs (error_entry err) w1)
  | (Val None, w1) => (Val tt, w1)
  | (Panic why, w1) => (Panic why, w1)
  end.
Proof.
  unfold consume. unfold bind at 1. unfold Infof at 1, log at 1.
  change {| rows := rows w; faults := faults w; issued := issued w;
            logged := logged w ++
              [entry InfoLevel "Handle update branch count merchant with retailer id %d"
                 [AInt (RetailerID m)]] |}
    with (logs (handle_entry m) w).
  unfold bind.
  destruct (updateBranchCount d (RetailerID m) (BranchCount m) (logs (handle_entry m) w))
    as [[[err |] | why] w1]; reflexivity.
Qed.

(** The paths of [consume]: [H] is an equation [consume d m w = (res, w')]. *)
Ltac gateway_paths H d m w :=
  let P := fresh "P" in
  pose proof (updateBranchCount_path d (RetailerID m) (BranchCount m)
                (logs (handle_entry m) w)) as P;
  destruct (updateBranchCount (Some d) (RetailerID m) (BranchCount m)
              (logs (handle_entry m) w)) as [?r ?w1];
  cbn [fst snd] in P;
  inversion P; subst; clear P;
  injection H as <- <-.

Ltac consume_paths H :=
  match type of H with
  | consume (Some ?d) ?m ?w = (?res, ?w') =>
      rewrite consume_run in H; gateway_paths H d m w
  | consume ?d ?m ?w = (?res, ?w') =>
      rewrite consume_run in H;
      let d' := fresh "d" in
      destruct d as [d' |];
      [ gateway_paths H d' m w
      | rewrite updateBranchCount_nil in H; injection H as <- <- ]
  end.

Lemma consume_rows (d : option DB) (m : Merchant) (w : World) :
  rows (snd (consume d m w)) = rows w \/
  exists r v,
    lookup (RetailerID m) (rows w) = Some r /\ BranchCount r = None /\
    BranchCount m = Some v /\
    rows (snd (consume d m w)) = write_branch_count (RetailerID m) v (rows w).
Proof.
  destruct (consume d m w) as [res w'] eqn:H. cbn [snd].
  consume_paths H; cbn in *; auto.
  right. do 2 eexists. eauto.
Qed.

(** ** The branch count only goes from absent to present *)

Lemma row_evolves_refl (r : Merchant) : row_evolves r r.
Proof. unfold row_evolves. auto. Qed.

Lemma evolves_refl (rs : list Merchant) : evolves rs rs.
Proof.
  unfold evolves. induction rs; constructor; [apply row_evolves_refl | assumption].
Qed.

Lemma evolves_trans (a b c : list Merchant) : evolves a b -> evolves b c -> evolves a c.
Proof.
  unfold evolves. intros H. revert c.
  induction H as [| x y a b Hxy Hab IH]; intros c Hc; inversion Hc; subst.
  - constructor.
  - constructor; [| apply IH; assumption].
    destruct Hxy as (K1 & X1 & B1).
    match goal with H : row_evolves y _ |- _ => destruct H as (K2 & X2 & B2) end.
    unfold row_evolves. repeat split; try congruence. auto.
Qed.

Lemma evolves_keys (rs rs' : list Merchant) :
  evolves rs rs' -> map RetailerID rs' = map RetailerID rs.
Proof.
  unfold evolves. induction 1 as [| x y a b Hxy Hab IH]; [reflexivity |].
  cbn [map]. destruct Hxy as (K & _ & _). congruence.
Qed.

Lemma evolves_length (rs rs' : list Merchant) :
  evolves rs rs' -> List.length rs' = List.length rs.
Proof.
  intros H. apply evolves_keys in H.
  rewrite <- (length_map RetailerID rs'), H. apply length_map.
Qed.

Lemma evolves_unique_keys (rs rs' : list Merchant) :
  evolves rs rs' -> unique_keys rs -> unique_keys rs'.
Proof.
  unfold unique_keys. intros H. rewrite (evolves_keys rs rs' H). auto.
Qed.

(** Writing the branch count of a key whose rows have none. *)
Lemma write_branch_count_evolves (retailerID v : Z) (rs : list Merchant) :
  (forall x, In x rs -> RetailerID x = retailerID -> BranchCount x = None) ->
  evolves rs (write_branch_count retailerID v rs).
Proof.
  unfold evolves, write_branch_count. induction rs as [| x rs IH]; intros H.
  - constructor.
  - cbn [map]. constructor.
    + destruct (RetailerID x =? retailerID) eqn:E; [| apply row_evolves_refl].
      apply Z.eqb_eq in E. unfold row_evolves. cbn.
      repeat split. intros c Hc.
      rewrite (H x (or_introl eq_refl) E) in Hc. discriminate Hc.
    + apply IH. intros y Hy. apply H. right. exact Hy.
Qed.

Lemma consume_evolves (d : option DB) (m : Merchant) (w : World) :
  unique_keys (rows w) -> evolves (rows w) (rows (snd (consume d m w))).
Proof.
  intros Hu.
  destruct (consume_rows d m w) as [-> | (r & v & Hl & Hb & _ & ->)].
  - apply evolves_refl.
  - apply write_branch_count_evolves. intros x Hx Hk.
    pose proof (lookup_unique (rows w) x Hu Hx) as Hlx.
    rewrite Hk, Hl in Hlx. injection Hlx as <-. exact Hb.
Qed.

Lemma producer_step_world (s s' : Sys) :
  producer_step s = Some s' -> world s' = world s.
Proof.
  destruct s as [d w f rd p pl wgv pc c mn ml cr].
  unfold producer_step. cbn [producer file reader pipe_closed].
  destruct p as [| m | m | err | err]; try discriminate;
    [ | | | intros H; injection H as <-; reflexivity].
  - destruct (open_err f); intros H; injection H as <-;
      unfold producer_return, wg_Done; cbn; destruct (wgv - 1 <? 0); cbn;
      destruct cr; reflexivity.
  - destruct (Read rd) as [[line err] rest].
    destruct (fileLoader_body m line err); intros H; injection H as <-;
      unfold producer_return, producer_panic, wg_Done; cbn;
      try (destruct (wgv - 1 <? 0)); cbn; destruct cr; reflexivity.
  - destruct pc; [| discriminate]. intros H. injection H as <-.
    unfold producer_panic, wg_Done; cbn. destruct (wgv - 1 <? 0); reflexivity.
Qed.

Lemma step_evolves (s s' : Sys) :
  unique_keys (rows (world s)) -> step s s' ->
  evolves (rows (world s)) (rows (world s')).
Proof.
  intros Hu [_ H | _ H | _ H | _ H | _ H].
  - rewrite (producer_step_world s s' H). apply evolves_refl.
  - unfold handoff in H. destruct (producer s); try discriminate H.
    destruct (consumer s); try discriminate H.
    destruct (pipe_closed s); [discriminate H |]. injection H as <-.
    apply evolves_refl.
  - unfold consumer_step in H.
    destruct (consumer s) as [| m | |]; try discriminate H.
    + destruct (pipe_closed s); [| discriminate H]. injection H as <-.
      apply evolves_refl.
    + pose proof (consume_evolves (db s) m (world s) Hu) as E.
      destruct (consume (db s) m (world s)) as [[[] | why] w1];
        injection H as <-; exact E.
  - unfold closer_step in H.
    destruct ((wg s =? 0) && negb (pipe_closed s)); [| discriminate H].
    injection H as <-. apply evolves_refl.
  - unfold done_step in H. destruct (consumer s); try discriminate H.
    destruct (main s); try discriminate H. injection H as <-.
    apply evolves_refl.
Qed.

(** C3.  Every operation of the pipeline, and so every execution of
    any length from any state with any input, leaves a table of unique
    keys with the same rows in the same places, each with the key and
    the expiry it had, and with the branch count it had when it had
    one: the only change is from absent to present; no row is created
    or deleted. *)
Theorem pipeline_only_fills_absent (s s' : Sys) :
  unique_keys (rows (world s)) ->
  steps s s' ->
  evolves (rows (world s)) (rows (world s')) /\
  List.length (rows (world s')) = List.length (rows (world s)) /\
  map RetailerID (rows (world s')) = map RetailerID (rows (world s)) /\
  unique_keys (rows (world s')).
Proof.
  intros Hu H.
  assert (E : evolves (rows (world s)) (rows (world s'))).
  { induction H as [| x y z Hxy Hyz IH]; [apply evolves_refl |].
    pose proof (step_evolves x y Hu Hxy) as E1.
    apply (evolves_trans _ _ _ E1). apply IH.
    apply (evolves_unique_keys _ _ E1 Hu). }
  split; [exact E |]. split; [apply evolves_length; exact E |].
  split; [apply evolves_keys; exact E | apply (evolves_unique_keys _ _ E Hu)].
Qed.

(** ** Running the pipeline again *)

Lemma lookup_write_branch_count (k retailerID v : Z) (rs : list Merchant) :
  lookup k (write_branch_count retailerID v rs) =
  option_map (fun r => if RetailerID r =? retailerID then with_branch_count v r else r)
    (lookup k rs).
Proof.
  unfold lookup, write_branch_count. induction rs as [| x rs IH]; [reflexivity |].
  cbn [map find].
  assert (K : RetailerID (if RetailerID x =? retailerID then with_branch_count v x else x)
              = RetailerID x).
  { destruct (RetailerID x =? retailerID); reflexivity. }
  rewrite K. destruct (RetailerID x =? k); [reflexivity | exact IH].
Qed.

Lemma settled_write (k retailerID v : Z) (rs : list Merchant) :
  settled k rs -> settled k (write_branch_count retailerID v rs).
Proof.
  unfold settled. intros H r. rewrite lookup_write_branch_count.
  destruct (lookup k rs) as [x |]; [| discriminate].
  cbn. intros E. injection E as <-.
  destruct (RetailerID x =? retailerID); [discriminate | apply H; reflexivity].
Qed.

Lemma settled_written (retailerID v : Z) (rs : list Merchant) :
  settled retailerID (write_branch_count retailerID v rs).
Proof.
  unfold settled. intros r. rewrite lookup_write_branch_count.
  destruct (lookup retailerID rs) as [x |] eqn:E; [| discriminate].
  apply lookup_some in E. destruct E as [_ E]. cbn. intros X. injection X as <-.
  apply Z.eqb_eq in E. rewrite E. discriminate.
Qed.

Lemma consume_settled (d : option DB) (m : Merchant) (w : World) (k : Z) :
  settled k (rows w) -> settled k (rows (snd (consume d m w))).
Proof.
  intros H. destruct (consume_rows d m w) as [-> | (r & v & _ & _ & _ & ->)].
  - exact H.
  - apply settled_write. exact H.
Qed.

Lemma no_faults_outcome (w : World) (n : nat) : no_faults w -> outcome_at n w = None.
Proof.
  unfold no_faults, outcome_at. intros H.
  destruct (nth_in_or_default n (faults w) None) as [Hin | ->]; [| reflexivity].
  rewrite Forall_forall in H. apply H. exact Hin.
Qed.

Lemma no_faults_tl (fs : list (option string)) :
  Forall (fun f => f = None) fs -> Forall (fun f => f = None) (tl fs).
Proof. intros H. destruct H; [constructor | assumption]. Qed.

Lemma consume_no_faults (d : option DB) (m : Merchant) (w : World) :
  no_faults w -> no_faults (snd (consume d m w)).
Proof.
  unfold no_faults. intros H.
  destruct (consume d m w) as [res w'] eqn:E. cbn [snd].
  consume_paths E; cbn; auto using no_faults_tl.
Qed.

(** Without a failure of the database the treatment of a record leaves
    its key settled. *)
Lemma consume_settles (d : option DB) (m : Merchant) (w w' : World) :
  no_faults w -> consume d m w = (Val tt, w') -> settled (RetailerID m) (rows w').
Proof.
  intros Hn E.
  pose proof (no_faults_outcome (logs (handle_entry m) w) 0 Hn) as N0.
  pose proof (no_faults_outcome (logs (handle_entry m) w) 1 Hn) as N1.
  assert (G : forall res w'', consume d m w = (res, w'') -> res = Val tt ->
                              settled (RetailerID m) (rows w'')).
  { intros res w'' H.
    consume_paths H; intros Hres; cbn [rows stored sent logs] in *; try congruence.
    apply settled_written. }
  apply (G (Val tt) w' E eq_refl).
Qed.

Lemma consume_all_settled (d : option DB) (ms : list Merchant) (w : World) (k : Z) :
  settled k (rows w) -> settled k (rows (snd (consume_all d ms w))).
Proof.
  revert w. induction ms as [| m ms IH]; intros w H; [exact H |].
  cbn [consume_all]. unfold bind.
  pose proof (consume_settled d m w k H) as H1.
  pose proof (consume_no_faults d m w) as _.
  destruct (consume d m w) as [[[] | why] w1]; cbn [snd] in *; [apply IH |]; assumption.
Qed.

Lemma consume_all_settles (d : option DB) (ms : list Merchant) (w w' : World) :
  no_faults w -> consume_all d ms w = (Val tt, w') ->
  Forall (fun m => settled (RetailerID m) (rows w')) ms.
Proof.
  revert w. induction ms as [| m ms IH]; intros w Hn E; [constructor |].
  cbn [consume_all] in E. unfold bind in E.
  pose proof (consume_no_faults d m w Hn) as Hn1.
  destruct (consume d m w) as [[[] | why] w1] eqn:E1; [| discriminate E].
  cbn [snd] in Hn1. constructor.
  - pose proof (consume_all_settled d ms w1 (RetailerID m)
                  (consume_settles d m w w1 Hn E1)) as S.
    rewrite E in S. exact S.
  - apply (IH w1); assumption.
Qed.

(** The treatment of a record whose key is settled writes nothing,
    whatever the database answers. *)
Lemma consume_noop (d : option DB) (m : Merchant) (w : World) :
  settled (RetailerID m) (rows w) ->
  rows (snd (consume d m w)) = rows w /\
  updates (issued (snd (consume d m w))) = updates (issued w).
Proof.
  unfold settled. intros Hs.
  destruct (consume d m w) as [res w'] eqn:H. cbn [snd].
  consume_paths H; cbn [rows issued stored sent logs] in *;
    try (exfalso; eapply Hs; eassumption);
    rewrite ?updates_app; (split; [reflexivity | unfold updates; cbn; lia]).
Qed.

Lemma consume_all_noop (d : option DB) (ms : list Merchant) (w : World) :
  Forall (fun m => settled (RetailerID m) (rows w)) ms ->
  rows (snd (consume_all d ms w)) = rows w /\
  updates (issued (snd (consume_all d ms w))) = updates (issued w).
Proof.
  revert w. induction ms as [| m ms IH]; intros w H; [split; reflexivity |].
  inversion H as [| x xs Hm Hms]; subst.
  cbn [consume_all]. unfold bind.
  destruct (consume_noop d m w Hm) as [R U].
  destruct (consume d m w) as [[[] | why] w1]; cbn [snd] in *; [| split; assumption].
  rewrite <- R in Hms. destruct (IH w1 Hms) as [R' U']. split; congruence.
Qed.

(** C2.  After a complete run in which the database failed no
    statement, a second complete run over the same file, started on
    the table the first run left, sends no update and leaves the table
    as the first run left it, whatever the schedule of either run and
    whatever the database answers in the second. *)
Theorem pipeline_idempotent (env env' : Environment) (s1 s2 : Sys) :
  Forall (fun f => f = None) (outcomes env) ->
  steps (handleMerchant_start env) s1 -> main s1 = MReturned ->
  retail_csv env' = retail_csv env ->
  gorm_Open env' = gorm_Open env -> db_DB env' = db_DB env ->
  table env' = rows (world s1) ->
  steps (handleMerchant_start env') s2 -> main s2 = MReturned ->
  rows (world s2) = rows (world s1) /\
  updates (issued (world s2)) = 0%nat.
Proof.
  intros Hn H1 M1 Hf Ho Hd Ht H2 M2.
  destruct (returned_state _ _ (handleMerchant_start_initial env) H1 M1)
    as (w1 & e1 & l1 & A1 & A2 & _).
  destruct (returned_state _ _ (handleMerchant_start_initial env') H2 M2)
    as (w2 & e2 & l2 & B1 & B2 & _).
  assert (Hdb : db (handleMerchant_start env') = db (handleMerchant_start env)).
  { unfold handleMerchant_start, newDB, configConnection. rewrite Ho, Hd.
    destruct (gorm_Open env); [reflexivity |]. destruct (db_DB env); reflexivity. }
  assert (Hfile : file (handleMerchant_start env') = file (handleMerchant_start env)).
  { unfold handleMerchant_start. destruct (newDB env'), (newDB env). exact Hf. }
  rewrite Hdb, Hfile in B1.
  set (d := db (handleMerchant_start env)) in *.
  set (ms := fst (fst (fileLoader (file (handleMerchant_start env))))) in *.
  assert (W0 : no_faults (world (handleMerchant_start env))).
  { unfold handleMerchant_start. destruct (newDB env). exact Hn. }
  pose proof (consume_all_settles d ms _ w1 W0 A1) as S.
  assert (R0 : rows (world (handleMerchant_start env')) = rows w1).
  { unfold handleMerchant_start. destruct (newDB env'). cbn. rewrite Ht, A2. reflexivity. }
  assert (I0 : issued (world (handleMerchant_start env')) = []).
  { unfold handleMerchant_start. destruct (newDB env'). reflexivity. }
  rewrite <- R0 in S.
  destruct (consume_all_noop d ms _ S) as [R U].
  rewrite B1 in R, U. cbn [snd] in R, U.
  rewrite A2, B2. cbn [rows issued logs]. rewrite R, U, R0, I0. split; reflexivity.
Qed.

(** ** The statements follow the order of the file *)

Lemma in_order_nil : in_order [] [].
Proof. exists []. split; [reflexivity | constructor]. Qed.

Lemma in_order_cons (m : Merchant) (ms : list Merchant) (ops rest : list StoreOp) :
  ops_of_record m ops -> in_order ms rest -> in_order (m :: ms) (ops ++ rest).
Proof.
  intros H (opss & -> & F). exists (ops :: opss).
  split; [reflexivity | constructor; assumption].
Qed.


(** What the treatment of a record sends. *)
Lemma consume_ops (d : option DB) (m : Merchant) (w : World) :
  (exists ops, ops_of_record m ops /\
               issued (snd (consume d m w)) = issued w ++ ops) \/
  (d = None /\ issued (snd (consume d m w)) = issued w /\
   exists why, fst (consume d m w) = Panic why).
Proof.
  destruct (consume d m w) as [res w'] eqn:H. cbn [fst snd].
  consume_paths H; cbn [rows issued stored sent logs] in *.
  1-4: left; exists [take_of (RetailerID m)]; split; [left; reflexivity | reflexivity].
  1-2: left; eexists; split;
         [right; eexists; split; [eassumption | reflexivity]
         | rewrite <- app_assoc; reflexivity].
  right. split; [reflexivity |]. split; [reflexivity |]. eexists. reflexivity.
Qed.

Lemma consume_all_in_order (d : option DB) (ms : list Merchant) (w w' : World) :
  consume_all d ms w = (Val tt, w') ->
  exists ops, in_order ms ops /\ issued w' = issued w ++ ops.
Proof.
  revert w. induction ms as [| m ms IH]; intros w E.
  - cbn in E. injection E as <-. exists []. split; [apply in_order_nil |].
    rewrite app_nil_r. reflexivity.
  - cbn [consume_all] in E. unfold bind in E.
    destruct (consume_ops d m w) as [(ops & Hops & Hi) | (_ & _ & why & Hp)];
      destruct (consume d m w) as [[[] | why'] w1] eqn:E1;
      try discriminate E; try discriminate Hp.
    cbn [snd] in Hi. destruct (IH w1 E) as (rest & Hr & Hi').
    exists (ops ++ rest). split; [apply in_order_cons; assumption |].
    rewrite Hi', Hi, app_assoc. reflexivity.
Qed.

(** The step before a crash. *)
Lemma crash_step (s0 s : Sys) :
  steps s0 s -> crashed s0 = None -> crashed s <> None ->
  exists p, steps s0 p /\ step p s /\ crashed p = None.
Proof.
  intros H H0 Hc.
  apply clos_rt1n_rt, clos_rt_rtn1 in H.
  destruct H as [| p s Hps Hp]; [contradiction |].
  exists p. split; [apply clos_rt_rt1n, clos_rtn1_rt; exact Hp |].
  split; [exact Hps |].
  apply step_alive, alive_inv in Hps. tauto.
Qed.

(** What a step that crashes leaves in the world. *)
Lemma crash_world (p s : Sys) :
  step p s -> crashed p = None -> crashed s <> None ->
  world s = world p \/
  exists m why, consumer p = CHandle m /\
                consume (db p) m (world p) = (Panic why, world s).
Proof.
  intros [_ H | _ H | _ H | _ H | _ H] Hp Hc.
  - left. apply producer_step_world. exact H.
  - unfold handoff in H. destruct (producer p); try discriminate H.
    destruct (consumer p); try discriminate H.
    destruct (pipe_closed p); [discriminate H |]. injection H as <-.
    left. reflexivity.
  - unfold consumer_step in H.
    destruct (consumer p) as [| m | |] eqn:Hco; try discriminate H.
    + destruct (pipe_closed p); [| discriminate H]. injection H as <-.
      cbn in Hc. contradiction.
    + destruct (consume (db p) m (world p)) as [[[] | why] w1] eqn:E;
        injection H as <-.
      * cbn in Hc. contradiction.
      * right. exists m, why. split; [reflexivity | exact E].
  - unfold closer_step in H.
    destruct ((wg p =? 0) && negb (pipe_closed p)); [| discriminate H].
    injection H as <-. left. reflexivity.
  - unfold done_step in H. destruct (consumer p); try discriminate H.
    destruct (main p); try discriminate H. injection H as <-. left. reflexivity.
Qed.

Lemma start_issued (env : Environment) : issued (world (handleMerchant_start env)) = [].
Proof. unfold handleMerchant_start. destruct (newDB env). reflexivity. Qed.

Lemma start_file (env : Environment) : file (handleMerchant_start env) = retail_csv env.
Proof. unfold handleMerchant_start. destruct (newDB env). reflexivity. Qed.

Lemma start_future (env : Environment) :
  future (handleMerchant_start env) = fileLoader (retail_csv env).
Proof. unfold handleMerchant_start. destruct (newDB env). reflexivity. Qed.

(** The statements sent in a state that has not crashed. *)
Lemma Inv_in_order (env : Environment) (s : Sys) :
  Inv (handleMerchant_start env) s ->
  exists treated,
    fst (fst (fileLoader (retail_csv env))) = treated ++ pending s /\
    in_order treated (issued (world s)).
Proof.
  intros I. destruct (inv_world _ _ I) as (treated & w & E1 & E2 & E3).
  rewrite start_future in E1. exists treated. split; [exact E1 |].
  destruct (consume_all_in_order _ _ _ _ E2) as (ops & Ho & Hi).
  rewrite start_issued in Hi. cbn in Hi.
  assert (X : issued (world s) = issued w).
  { rewrite E3. destruct (finished s); reflexivity. }
  rewrite X, Hi. exact Ho.
Qed.


(** ** The record source stops at the first error *)

Lemma fileLoader_body_ExpireAt (m1 m2 : Merchant) (line : list string) (err : option error) :
  ExpireAt m1 = ExpireAt m2 ->
  fileLoader_body m1 line err = fileLoader_body m2 line err.
Proof.
  intros H. unfold fileLoader_body. rewrite H. reflexivity.
Qed.

Lemma fileLoader_body_Send (mv m : Merchant) (line : list string) (err : option error) :
  fileLoader_body mv line err = Send m ->
  ExpireAt m = ExpireAt mv /\ exists v, BranchCount m = Some v /\ in_int32 v.
Proof.
  unfold fileLoader_body. destruct err as [e |].
  - destruct (is_EOF e); discriminate.
  - destruct (index line 0) as [f0 |]; [| discriminate].
    destruct (strconv.ParseInt f0 10 64) as [rid [e |]]; [discriminate |].
    destruct (index line 1) as [f1 |]; [| discriminate].
    destruct (strconv.ParseInt f1 10 64) as [bc [e |]]; [discriminate |].
    intros H. injection H as <-. cbn. split; [reflexivity |].
    eexists. split; [reflexivity | apply int32_range].
Qed.

(** Every record the source sends carries a branch count. *)
Lemma fileLoader_loop_BranchCount (f : File) (rd : list ReadResult) : forall mv,
  Forall (fun m => BranchCount m <> None) (fst (fst (fileLoader_loop f mv rd))).
Proof.
  induction rd as [| r rd IH]; intros mv.
  - cbn. constructor.
  - cbn [fileLoader_loop].
    destruct (Read (r :: rd)) as [[line err] rest] eqn:HR.
    destruct (fileLoader_body mv line err) as [| e logs | m | why] eqn:Hb;
      try (cbn; constructor).
    specialize (IH m).
    destruct (fileLoader_loop f m rd) as [[ms e] u]. cbn [fst] in *.
    constructor; [| exact IH].
    apply fileLoader_body_Send in Hb. destruct Hb as (_ & v & -> & _). discriminate.
Qed.

Lemma fileLoader_BranchCount (f : File) :
  Forall (fun m => BranchCount m <> None) (fst (fst (fileLoader f))).
Proof.
  unfold fileLoader. destruct (open_err f); [constructor |].
  apply fileLoader_loop_BranchCount.
Qed.

(** With an open database the treatment of such a record returns. *)
Lemma consume_returns (d : DB) (m : Merchant) (w : World) :
  BranchCount m <> None -> fst (consume (Some d) m w) = Val tt.
Proof.
  intros Hb. destruct (consume (Some d) m w) as [res w'] eqn:H. cbn [fst].
  consume_paths H; try reflexivity. congruence.
Qed.

Lemma consume_all_returns (d : DB) (ms : list Merchant) (w : World) :
  Forall (fun m => BranchCount m <> None) ms ->
  fst (consume_all (Some d) ms w) = Val tt.
Proof.
  revert w. induction ms as [| m ms IH]; intros w H; [reflexivity |].
  inversion H as [| x xs Hm Hms]; subst.
  cbn [consume_all]. unfold bind.
  pose proof (consume_returns d m w Hm) as R.
  destruct (consume (Some d) m w) as [res w1]. cbn [fst] in R. subst res.
  apply IH. exact Hms.
Qed.

Lemma start_db (env : Environment) :
  gorm_Open env = None -> db_DB env = None ->
  exists d, db (handleMerchant_start env) = Some d.
Proof.
  intros Ho Hd. unfold handleMerchant_start, newDB, configConnection.
  rewrite Ho, Hd. eexists. reflexivity.
Qed.

(** With the database open, the pipeline is free of panics as soon as
    the record source is. *)
Lemma panic_free_open (env : Environment) (err : option error) (logs : list LogEntry) :
  gorm_Open env = None -> db_DB env = None ->
  snd (fst (fileLoader (retail_csv env))) = Returned err logs ->
  panic_free (handleMerchant_start env).
Proof.
  intros Ho Hd He. destruct (start_db env Ho Hd) as [d Hdb].
  unfold panic_free. rewrite start_file, Hdb. split.
  - exists err, logs. exact He.
  - pose proof (consume_all_returns d _ (world (handleMerchant_start env))
                  (fileLoader_BranchCount (retail_csv env))) as R.
    destruct (consume_all (Some d) (fst (fst (fileLoader (retail_csv env))))
                (world (handleMerchant_start env))) as [res w].
    cbn [fst] in R. subst res. exists w. reflexivity.
Qed.

Lemma yields_ExpireAt (r : ReadResult) (m : Merchant) : yields r m -> ExpireAt m = 0.
Proof.
  intros (fields & _ & H). apply fileLoader_body_Send in H. tauto.
Qed.

(** The loop on lines that yield records followed by one that fails. *)
Lemma fileLoader_loop_fails (f : File) (good : list ReadResult) (bad : ReadResult)
    (rest : list ReadResult) (err : error) :
  fails_with bad err ->
  forall (ms : list Merchant) (mv : Merchant),
    Forall2 yields good ms -> ExpireAt mv = 0 ->
    exists logs,
      fileLoader_loop f mv (good ++ bad :: rest) = (ms, Returned (Some err) logs, rest).
Proof.
  intros Hbad. induction good as [| g good IH]; intros ms mv Hg Hmv.
  - inversion Hg; subst. cbn [app fileLoader_loop].
    destruct bad as [fields | e].
    + destruct Hbad as [logs Hb]. cbn [Read].
      rewrite (fileLoader_body_ExpireAt mv zero_Merchant fields None Hmv), Hb.
      eexists. reflexivity.
    + destruct Hbad as [-> He]. cbn [Read]. unfold fileLoader_body. rewrite He.
      eexists. reflexivity.
  - inversion Hg as [| x m xs ms' Hy Hrest]; subst.
    pose proof (yields_ExpireAt g m Hy) as Hm.
    destruct Hy as (fields & -> & Hb).
    cbn [app fileLoader_loop Read].
    rewrite (fileLoader_body_ExpireAt mv zero_Merchant fields None Hmv), Hb.
    destruct (IH ms' m Hrest Hm) as [logs ->]. eexists. reflexivity.
Qed.

(** C5.  When the file opens, its first lines yield the records [ms]
    and the next one fails, with the database open: the program ends,
    and however its goroutines were scheduled it ends by
    [handleMerchant] returning with [fileLoader] returned on that
    error, the reader left before the lines that follow the failing
    one, the channel closed, and the consumer having treated to their
    end exactly the records [ms] - none for the failing line, none for
    a later one. *)
Theorem fileLoader_fails_fast (env : Environment) (good : list ReadResult)
    (bad : ReadResult) (rest : list ReadResult) (ms : list Merchant) (err : error) :
  gorm_Open env = None -> db_DB env = None ->
  open_err (retail_csv env) = None ->
  content (retail_csv env) = good ++ bad :: rest ->
  Forall2 yields good ms ->
  fails_with bad err ->
  steps (handleMerchant_start env) (handleMerchant env) /\
  alive (handleMerchant env) = false /\
  forall s, steps (handleMerchant_start env) s -> alive s = false ->
    main s = MReturned /\ crashed s = None /\
    (producer s = PReturned (Some err) \/ producer s = PExit (Some err)) /\
    reader s = rest /\
    pipe_closed s = true /\
    consumer s = CExit /\
    exists w,
      consume_all (db (handleMerchant_start env)) ms
        (world (handleMerchant_start env)) = (Val tt, w) /\
      world s = logs done_entry w.
Proof.
  intros Ho Hd Hopen Hc Hg Hb.
  destruct (handleMerchant_runs env) as [R1 R2].
  split; [exact R1 |]. split; [exact R2 |].
  intros s Hs Ha.
  destruct (fileLoader_loop_fails (retail_csv env) good bad rest err Hb ms
              zero_Merchant Hg eq_refl) as [logs Hl].
  assert (HF : fileLoader (retail_csv env) = (ms, Returned (Some err) logs, rest)).
  { unfold fileLoader. rewrite Hopen, Hc. exact Hl. }
  assert (Hp : panic_free (handleMerchant_start env)).
  { apply (panic_free_open env (Some err) logs Ho Hd). rewrite HF. reflexivity. }
  destruct (pipeline_deterministic env s Hp Hs Ha) as [Hm _].
  destruct (returned_state _ _ (handleMerchant_start_initial env) Hs Hm)
    as (w & e & ls & A1 & A2 & A3 & A4 & A5 & A6 & A7 & A8 & A9 & A10 & A11 & A12).
  rewrite start_file, HF in *. cbn [fst snd] in *.
  injection A3 as -> _.
  split; [exact Hm |]. split; [exact A12 |].
  split; [destruct A5 as [[X _] | [X _]]; auto |].
  split; [exact A4 |]. split; [exact A7 |]. split; [exact A6 |].
  exists w. split; assumption.
Qed.

(** ** Panics *)

(** Why a step crashes: the record source panics as its sequential
    reading does, or the treatment of the record in the consumer's hand
    panics. *)
Lemma crash_cause (s0 p s : Sys) (why : string) :
  Inv s0 p -> step p s -> crashed s = Some why ->
  (world s = world p /\
   exists logs, snd (fst (future s0)) = Panicked why logs) \/
  (exists m, consumer p = CHandle m /\
             exists w, consume (db p) m (world p) = (Panic why, w) /\ world s = w).
Proof.
  intros [Idb Ifile Imlog Icr Ifut Iwg Iopen Irun Ifin Imain Iworld] H Hc.
  set (F0 := future s0) in *.
  destruct p as [d w f rd p pl wgv pc c mn ml cr].
  cbn in Idb, Ifile, Imlog, Icr. subst cr.
  destruct H as [_ H | _ H | _ H | _ H | _ H].
  - left. split; [apply (producer_step_world _ _ H) |].
    unfold producer_step in H. on_fields H.
    unfold returned, heads_for, future in Iwg, Irun, Ifut. cbn in Iwg, Irun, Ifut.
    destruct p as [| m | m | err | err]; try discriminate H;
      [ | | | injection H as <-; discriminate Hc];
      destruct Ifut as [Iend _].
    + subst wgv. destruct (open_err f); injection H as <-; discriminate Hc.
    + subst wgv. destruct rd as [| r rest].
      * cbn in H. injection H as <-. discriminate Hc.
      * cbn [fileLoader_loop] in Iend.
        destruct (Read (r :: rest)) as [[line err] rest'] eqn:HR.
        destruct (fileLoader_body m line err) as [| e logs | m' | why'];
          injection H as <-; try discriminate Hc.
        cbn in Hc. injection Hc as ->. cbn in Iend.
        eexists. symmetry. exact Iend.
    + destruct (Irun eq_refl) as [_ X]. cbn in X. subst pc. discriminate H.
  - unfold handoff in H. on_fields H.
    destruct p; try discriminate H. destruct c; try discriminate H.
    destruct pc; [discriminate H |]. injection H as <-. discriminate Hc.
  - unfold consumer_step in H. on_fields H.
    destruct c as [| m | |]; try discriminate H.
    + destruct pc; [| discriminate H]. injection H as <-. discriminate Hc.
    + right. exists m. split; [reflexivity |]. cbn [db world].
      destruct (consume d m w) as [[[] | why'] w1]; injection H as <-;
        [discriminate Hc |].
      cbn in Hc. injection Hc as ->. exists w1. split; reflexivity.
  - unfold closer_step in H. on_fields H.
    destruct ((wgv =? 0) && negb pc); [| discriminate H].
    injection H as <-. discriminate Hc.
  - unfold done_step in H. on_fields H.
    destruct c; try discriminate H. destruct mn; try discriminate H.
    injection H as <-. discriminate Hc.
Qed.

(** A step that crashes leaves the producer where it stood. *)
Lemma crash_producer (p s : Sys) :
  step p s -> crashed p = None -> crashed s <> None -> producer s = producer p.
Proof.
  intros H Hp Hc.
  destruct p as [d w f rd p pl wgv pc c mn ml cr]. cbn in Hp. subst cr.
  destruct H as [_ H | _ H | _ H | _ H | _ H].
  - unfold producer_step in H. on_fields H.
    destruct p as [| m | m | err | err]; try discriminate H.
    + destruct (open_err f); injection H as <-;
        [| cbn in Hc; contradiction].
      unfold producer_return, wg_Done in *. cbn in *.
      destruct (wgv - 1 <? 0); cbn in *; [reflexivity | contradiction].
    + destruct (Read rd) as [[line err] rest].
      destruct (fileLoader_body m line err); injection H as <-;
        unfold producer_return, producer_panic, wg_Done in *; cbn in *;
        destruct (wgv - 1 <? 0); cbn in *; try reflexivity; contradiction.
    + destruct pc; [| discriminate H]. injection H as <-.
      unfold producer_panic, wg_Done. cbn. destruct (wgv - 1 <? 0); reflexivity.
    + injection H as <-. cbn in Hc. contradiction.
  - unfold handoff in H. on_fields H.
    destruct p; try discriminate H. destruct c; try discriminate H.
    destruct pc; [discriminate H |]. injection H as <-. cbn in Hc. contradiction.
  - unfold consumer_step in H. on_fields H.
    destruct c as [| m | |]; try discriminate H.
    + destruct pc; [| discriminate H]. injection H as <-. reflexivity.
    + destruct (consume d m w) as [[[] | why] w1]; injection H as <-; reflexivity.
  - unfold closer_step in H. on_fields H.
    destruct ((wgv =? 0) && negb pc); [| discriminate H].
    injection H as <-. reflexivity.
  - unfold done_step in H. on_fields H.
    destruct c; try discriminate H. destruct mn; try discriminate H.
    injection H as <-. reflexivity.
Qed.

Lemma in_order_nil_inv (ops : list StoreOp) : in_order [] ops -> ops = [].
Proof. intros (opss & -> & F). inversion F. reflexivity. Qed.

(** C10.  The record source reads fields 0 and 1 of a line without
    looking at its length: for every file whose first line has the
    single field [f0], an integer, the access to field 1 panics with
    an index out of range; the source sends nothing and returns no
    error, and the process, however scheduled, ends by that panic with
    [fileLoader] not returned and no statement sent. *)
Theorem short_first_line_panics (env : Environment) (f0 : string)
    (rest : list ReadResult) (retailerID : Z) :
  open_err (retail_csv env) = None ->
  content (retail_csv env) = Line [f0] :: rest ->
  strconv.ParseInt f0 10 64 = (retailerID, None) ->
  fileLoader_body zero_Merchant [f0] None = Panics "index out of range" /\
  fileLoader (retail_csv env) =
    ([], Panicked "index out of range" (closing (retail_csv env)), rest) /\
  forall s, steps (handleMerchant_start env) s -> alive s = false ->
    crashed s = Some "index out of range"%string /\
    (forall err, producer s <> PReturned err /\ producer s <> PExit err) /\
    issued (world s) = [].
Proof.
  intros Hopen Hc Hparse.
  assert (Hb : fileLoader_body zero_Merchant [f0] None = Panics "index out of range").
  { unfold fileLoader_body. cbn [index nth_error]. rewrite Hparse. reflexivity. }
  assert (HF : fileLoader (retail_csv env) =
               ([], Panicked "index out of range" (closing (retail_csv env)), rest)).
  { unfold fileLoader. rewrite Hopen, Hc. cbn [fileLoader_loop Read]. rewrite Hb.
    reflexivity. }
  split; [exact Hb |]. split; [exact HF |].
  intros s Hs Ha. pose proof (handleMerchant_start_initial env) as Hi.
  destruct (crashed s) as [why |] eqn:Hcr.
  - destruct (crash_step _ _ Hs (init_crashed _ Hi) ltac:(congruence))
      as (p & Hp & Hps & Hpc).
    pose proof (reachable_Inv _ _ Hi Hp Hpc) as I.
    assert (Hm : forall err, producer s <> PReturned err /\ producer s <> PExit err).
    { intros err.
      rewrite (crash_producer p s Hps Hpc ltac:(congruence)).
      pose proof (inv_future _ _ I) as Hf.
      rewrite start_future, HF in Hf. unfold heads_for, future in Hf.
      split; intros X; rewrite X in Hf; cbn in Hf.
      - destruct Hf as [Hf _]. discriminate Hf.
      - destruct Hf as (ls & Hf & _). discriminate Hf. }
    destruct (Inv_in_order env p I) as (treated & E1 & Ho).
    rewrite HF in E1. cbn [fst] in E1. symmetry in E1. apply app_eq_nil in E1.
    destruct E1 as [-> Hpend]. apply in_order_nil_inv in Ho.
    destruct (crash_cause _ p s why I Hps Hcr) as [[Hw [logs X]] | (m & Hco & _)].
    + rewrite start_future, HF in X. cbn [fst snd] in X. injection X as <- _.
      split; [reflexivity |]. split; [exact Hm |]. rewrite Hw. exact Ho.
    + exfalso. unfold pending, in_hand in Hpend. rewrite Hco in Hpend.
      discriminate Hpend.
  - exfalso. pose proof (ended_returned s Ha Hcr) as M.
    destruct (returned_state _ _ Hi Hs M) as (w & err & ls & _ & _ & A3 & _).
    rewrite start_file, HF in A3. discriminate A3.
Qed.

(** ** Failures of the database, missing keys *)

Lemma handled_logs (e : LogEntry) (w : World) :
  handled (logs e w) = handled w ++ (if is_handle e then [args e] else []).
Proof.
  unfold handled. cbn [logged logs]. rewrite filter_app, map_app. cbn [filter].
  destruct (is_handle e); reflexivity.
Qed.

Lemma handled_sent (op : StoreOp) (w : World) : handled (sent op w) = handled w.
Proof. reflexivity. Qed.

Lemma handled_stored (rs : list Merchant) (w : World) : handled (stored rs w) = handled w.
Proof. reflexivity. Qed.

(** The treatment of a record logs that it handles it, once, whatever
    the database answers. *)
Lemma consume_handled (d : DB) (m : Merchant) (w : World) :
  handled (snd (consume (Some d) m w)) = handled w ++ [[AInt (RetailerID m)]].
Proof.
  destruct (consume (Some d) m w) as [res w'] eqn:H. cbn [snd].
  consume_paths H;
    rewrite ?handled_stored, ?handled_sent, ?handled_logs, ?handled_sent, ?handled_logs,
            ?handled_sent, ?handled_logs;
    cbn [is_handle format entry error_entry handle_entry args String.eqb Ascii.eqb
         Bool.eqb app];
    rewrite ?app_nil_r; reflexivity.
Qed.

Lemma consume_all_handled (d : DB) (ms : list Merchant) (w w' : World) :
  consume_all (Some d) ms w = (Val tt, w') ->
  handled w' = handled w ++ map (fun m => [AInt (RetailerID m)]) ms.
Proof.
  revert w. induction ms as [| m ms IH]; intros w E.
  - cbn in E. injection E as <-. cbn. rewrite app_nil_r. reflexivity.
  - cbn [consume_all] in E. unfold bind in E.
    pose proof (consume_handled d m w) as Hh.
    destruct (consume (Some d) m w) as [[[] | why] w1]; [| discriminate E].
    cbn [snd] in Hh. rewrite (IH w1 E), Hh, <- app_assoc. reflexivity.
Qed.

(** The move of a consumer whose call of [updateBranchCount] returns. *)
Lemma consumer_step_returns (s : Sys) (d : DB) (m : Merchant) (res : option error) :
  alive s = true -> db s = Some d -> consumer s = CHandle m ->
  fst (updateBranchCount (Some d) (RetailerID m) (BranchCount m)
         (logs (handle_entry m) (world s))) = Val res ->
  exists s',
    consumer_step s = Some s' /\ step s s' /\
    consumer s' = CRecv /\ alive s' = true /\
    producer s' = producer s /\ reader s' = reader s /\
    world s' =
      (let w1 := snd (updateBranchCount (Some d) (RetailerID m) (BranchCount m)
                        (logs (handle_entry m) (world s))) in
       match res with
       | Some err => logs (error_entry err) w1
       | None => w1
       end).
Proof.
  intros Ha Hd Hc Hr.
  assert (E : consumer_step s =
              Some (set_consumer CRecv
                      (set_world
                         (let w1 := snd (updateBranchCount (Some d) (RetailerID m)
                                           (BranchCount m)
                                           (logs (handle_entry m) (world s))) in
                          match res with
                          | Some err => logs (error_entry err) w1
                          | None => w1
                          end) s))).
  { unfold consumer_step. rewrite Hc, Hd, consume_run.
    destruct (updateBranchCount (Some d) (RetailerID m) (BranchCount m)
                (logs (handle_entry m) (world s))) as [r w1].
    cbn [fst snd] in *. subst r. destruct res; reflexivity. }
  eexists. split; [exact E |]. split; [apply step_consumer; assumption |].
  unfold alive in *. cbn. repeat split; try reflexivity. exact Ha.
Qed.

(** An error of [updateBranchCount] is a failure of the database, and
    the call has written nothing. *)
Lemma updateBranchCount_error (d : DB) (retailerID : Z) (branchCount : option Z)
    (w : World) (err : error) :
  fst (updateBranchCount (Some d) retailerID branchCount w) = Val (Some err) ->
  rows (snd (updateBranchCount (Some d) retailerID branchCount w)) = rows w /\
  exists msg, err = ErrDriver msg /\
              (outcome_at 0 w = Some msg \/ outcome_at 1 w = Some msg).
Proof.
  pose proof (updateBranchCount_path d retailerID branchCount w) as P.
  destruct (updateBranchCount (Some d) retailerID branchCount w) as [res w'].
  cbn [fst snd] in *. intros ->.
  inversion P; subst; cbn [rows stored sent logs];
    (split; [reflexivity | eexists; split; [reflexivity | auto]]).
Qed.

Lemma start_logged (env : Environment) : logged (world (handleMerchant_start env)) = [].
Proof. unfold handleMerchant_start. destruct (newDB env). reflexivity. Qed.

(** What every complete execution of a panic-free pipeline has
    handled. *)
Lemma ended_handled (env : Environment) (d : DB) (t : Sys) :
  panic_free (handleMerchant_start env) ->
  db (handleMerchant_start env) = Some d ->
  steps (handleMerchant_start env) t -> alive t = false ->
  main t = MReturned /\
  handled (world t) =
    map (fun r => [AInt (RetailerID r)]) (fst (fst (fileLoader (retail_csv env)))).
Proof.
  intros Hp Hd Ht Ha.
  destruct (pipeline_deterministic env t Hp Ht Ha) as [Hm _].
  split; [exact Hm |].
  destruct (returned_state _ _ (handleMerchant_start_initial env) Ht Hm)
    as (w & e & ls & A1 & A2 & _).
  rewrite Hd, start_file in A1.
  rewrite A2, handled_logs. cbn [is_handle done_entry entry format String.eqb Ascii.eqb Bool.eqb].
  rewrite app_nil_r, (consume_all_handled d _ _ w A1).
  unfold handled. rewrite start_logged. reflexivity.
Qed.

(** C8.  When the lookup or the update of a record fails, the call of
    [updateBranchCount] returns the error of the database: the
    consumer logs it, the table is as it was before the record, the
    process goes on with the consumer back at its receive, and every
    execution from there ends with [handleMerchant] returned and every
    record of the file handled. *)
Theorem store_failure_is_not_fatal (env : Environment) (s : Sys) (d : DB) (m : Merchant)
    (err : error) (end_err : option error) (end_logs : list LogEntry) :
  gorm_Open env = None -> db_DB env = None ->
  snd (fst (fileLoader (retail_csv env))) = Returned end_err end_logs ->
  steps (handleMerchant_start env) s ->
  db s = Some d ->
  consumer s = CHandle m ->
  fst (updateBranchCount (Some d) (RetailerID m) (BranchCount m)
         (logs (handle_entry m) (world s))) = Val (Some err) ->
  exists s',
    step s s' /\ consumer_step s = Some s' /\
    consumer s' = CRecv /\ alive s' = true /\
    rows (world s') = rows (world s) /\
    (exists before, logged (world s') = before ++ [error_entry err]) /\
    (exists msg, err = ErrDriver msg) /\
    forall t, steps s' t -> alive t = false ->
      main t = MReturned /\
      handled (world t) =
        map (fun r => [AInt (RetailerID r)]) (fst (fst (fileLoader (retail_csv env)))).
Proof.
  intros Ho Hdb Hend Hs Hd Hc Herr.
  pose proof (handleMerchant_start_initial env) as Hi.
  pose proof (panic_free_open env end_err end_logs Ho Hdb Hend) as Hp.
  destruct (steps_panic_free _ _ Hi Hp Hs) as [Hcr I].
  assert (Ha : alive s = true).
  { unfold alive. rewrite Hcr. destruct (main s) eqn:M; [reflexivity |].
    apply (inv_main _ _ I) in M. congruence. }
  destruct (consumer_step_returns s d m (Some err) Ha Hd Hc Herr)
    as (s' & E & Hstep & C' & A' & _ & _ & W').
  destruct (updateBranchCount_error d _ _ _ err Herr) as [R (msg & -> & _)].
  exists s'. split; [exact Hstep |]. split; [exact E |].
  split; [exact C' |]. split; [exact A' |].
  split; [rewrite W'; cbn [rows logs]; exact R |].
  split; [rewrite W'; cbn [logged logs]; eexists; reflexivity |].
  split; [exists msg; reflexivity |].
  intros t Ht Hat.
  assert (Hd0 : db (handleMerchant_start env) = Some d).
  { rewrite <- (inv_db _ _ I). exact Hd. }
  apply (ended_handled env d t Hp Hd0); [| exact Hat].
  apply (steps_trans _ s); [exact Hs |]. apply (steps_step s s'); assumption.
Qed.

Lemma updateBranchCount_not_found (d : DB) (w : World)
    (retailerID : Z) (branchCount : option Z) :
  (forall r, In r (rows w) -> RetailerID r <> retailerID) ->
  issued (snd (updateBranchCount (Some d) retailerID branchCount w)) =
    issued w ++ [take_of retailerID] /\
  rows (snd (updateBranchCount (Some d) retailerID branchCount w)) = rows w /\
  (exists res, fst (updateBranchCount (Some d) retailerID branchCount w) = Val res) /\
  (outcome_at 0 w = None ->
   fst (updateBranchCount (Some d) retailerID branchCount w) = Val None /\
   logged (snd (updateBranchCount (Some d) retailerID branchCount w)) =
     logged w ++ [entry InfoLevel "Retailer ID %d not found" [AInt retailerID]]).
Proof.
  intros Hno. apply lookup_none in Hno.
  pose proof (updateBranchCount_path d retailerID branchCount w) as P.
  inversion P as [msg E0 | E0 El | r' c' E0 El Ec | r' E0 El Ec Eb
                 | r' v' msg E0 El Ec Eb E1 | r' v' E0 El Ec Eb E1];
    try congruence; cbn [issued rows logged stored sent logs].
  - repeat split; try reflexivity; [eexists; reflexivity | congruence | congruence].
  - repeat split; try reflexivity. eexists; reflexivity.
Qed.

(** C6.  A record whose key has no row in the table: the call of
    [updateBranchCount] sends the lookup and no update, the table is
    as it was, and the process goes on with the consumer back at its
    receive; when the lookup executes the call logs that the retailer
    was not found and returns nil, not an error. *)
Theorem missing_key_is_no_error (s : Sys) (d : DB) (m : Merchant) :
  alive s = true -> db s = Some d -> consumer s = CHandle m ->
  (forall r, In r (rows (world s)) -> RetailerID r <> RetailerID m) ->
  exists s',
    step s s' /\ consumer_step s = Some s' /\
    consumer s' = CRecv /\ alive s' = true /\
    rows (world s') = rows (world s) /\
    issued (world s') = issued (world s) ++ [take_of (RetailerID m)] /\
    updates (issued (world s')) = updates (issued (world s)) /\
    (outcome_at 0 (world s) = None ->
     fst (updateBranchCount (Some d) (RetailerID m) (BranchCount m)
            (logs (handle_entry m) (world s))) = Val None /\
     logged (world s') =
       logged (world s) ++
       [handle_entry m;
        entry InfoLevel "Retailer ID %d not found" [AInt (RetailerID m)]]).
Proof.
  intros Ha Hd Hc Hno.
  destruct (updateBranchCount_not_found d (logs (handle_entry m) (world s))
              (RetailerID m) (BranchCount m) Hno) as (I1 & R1 & [res Hres] & N1).
  destruct (consumer_step_returns s d m res Ha Hd Hc Hres)
    as (s' & E & Hstep & C' & A' & _ & _ & W').
  cbv zeta in W'.
  assert (Hi : issued (world s') = issued (world s) ++ [take_of (RetailerID m)]).
  { rewrite W'. destruct res; cbn [issued logs]; exact I1. }
  exists s'. split; [exact Hstep |]. split; [exact E |].
  split; [exact C' |]. split; [exact A' |].
  split; [rewrite W'; destruct res; cbn [rows logs]; exact R1 |].
  split; [exact Hi |].
  split; [rewrite Hi, updates_app; unfold updates; cbn; lia |].
  intros H0. destruct (N1 H0) as [F L]. split; [exact F |].
  rewrite Hres in F. injection F as ->. rewrite W', L. cbn [logged logs].
  rewrite <- app_assoc. reflexivity.
Qed.

(** ** The examples of the specification *)

Example two_lines_result :
  rows (world (handleMerchant two_lines)) =
    [row 42 (Some 7) 1700000000; row 43 (Some 3) 1800000000] /\
  issued (world (handleMerchant two_lines)) =
    [take_of 42; update_of 42 7; take_of 43] /\
  main (handleMerchant two_lines) = MReturned.
Proof. vm_compute. repeat split; reflexivity. Qed.

Example unknown_key_result :
  rows (world (handleMerchant unknown_key)) = two_rows /\
  issued (world (handleMerchant unknown_key)) = [take_of 99] /\
  logged (world (handleMerchant unknown_key)) =
    [handle_entry (row 99 (Some 5) 0);
     entry InfoLevel "Retailer ID %d not found" [AInt 99];
     done_entry].
Proof. vm_compute. repeat split; reflexivity. Qed.

Example first_in_hand_two_lines :
  consumer (first_in_hand two_lines) = CHandle (row 42 (Some 7) 0).
Proof. vm_compute. reflexivity. Qed.

(** C4 fails on the code.  With the database impossible to open,
    [newDB] returns the error and [handleMerchant] logs it, but the
    run is not aborted: the goroutines are started on the nil
    database, the file is read, the record 42,7 is handed to the
    consumer, which logs that it handles it and calls
    [updateBranchCount], where the nil database is dereferenced; on an
    empty file the run even ends with Done and [handleMerchant]
    returning. *)
Theorem handleMerchant_goes_on_without_database :
  newDB database_down = (None, Some connection_refused) /\
  mlog (handleMerchant_start database_down) =
    [entry DebugLevel "Coming Create Storage" []; error_entry connection_refused] /\
  alive (handleMerchant_start database_down) = true /\
  steps (handleMerchant_start database_down) (first_in_hand database_down) /\
  steps (handleMerchant_start database_down) (handleMerchant database_down) /\
  consumer (first_in_hand database_down) = CHandle (row 42 (Some 7) 0) /\
  db (first_in_hand database_down) = None /\
  fst (consume None (row 42 (Some 7) 0) (world (first_in_hand database_down))) =
    Panic nil_dereference /\
  crashed (handleMerchant database_down) = Some nil_dereference /\
  reader (handleMerchant database_down) = [] /\
  logged (world (handleMerchant database_down)) = [handle_entry (row 42 (Some 7) 0)] /\
  main (handleMerchant database_down_empty_file) = MReturned /\
  crashed (handleMerchant database_down_empty_file) = None /\
  logged (world (handleMerchant database_down_empty_file)) = [done_entry].
Proof.
  split; [reflexivity |]. split; [reflexivity |]. split; [reflexivity |].
  split; [apply run_steps |]. split; [apply run_steps |].
  vm_compute. repeat split; reflexivity.
Qed.

(** ** The theorems at the examples *)

Lemma two_rows_unique : unique_keys two_rows.
Proof.
  unfold unique_keys, two_rows. cbn.
  constructor; [cbn; intros [H | []]; discriminate H |].
  constructor; [intros [] | constructor].
Qed.

Lemma updateBranchCount_conditional_write_witness :
  fst (updateBranchCount (Some pooled_DB) 42 (Some 7)
         {| rows := two_rows; faults := []; issued := []; logged := [] |}) = Val None /\
  rows (snd (updateBranchCount (Some pooled_DB) 42 (Some 7)
         {| rows := two_rows; faults := []; issued := []; logged := [] |})) =
    [row 42 (Some 7) 1700000000; row 43 (Some 3) 1800000000].
Proof.
  pose proof (updateBranchCount_conditional_write pooled_DB
                {| rows := two_rows; faults := []; issued := []; logged := [] |}
                (row 42 None 1700000000) 42 (Some 7)
                two_rows_unique (or_introl eq_refl) eq_refl eq_refl) as [H _].
  destruct (H 7 eq_refl eq_refl eq_refl) as (H1 & _ & _ & H4).
  split; [exact H1 | exact H4].
Defined.

Lemma pipeline_idempotent_witness :
  rows (world (handleMerchant two_lines_again)) = rows (world (handleMerchant two_lines)) /\
  updates (issued (world (handleMerchant two_lines_again))) = 0%nat.
Proof.
  apply (pipeline_idempotent two_lines two_lines_again
           (handleMerchant two_lines) (handleMerchant two_lines_again)).
  - constructor.
  - apply run_steps.
  - vm_compute. reflexivity.
  - reflexivity.
  - reflexivity.
  - reflexivity.
  - vm_compute. reflexivity.
  - apply run_steps.
  - vm_compute. reflexivity.
Defined.

Lemma pipeline_only_fills_absent_witness :
  evolves two_rows (rows (world (handleMerchant two_lines))).
Proof.
  apply (pipeline_only_fills_absent (handleMerchant_start two_lines)
           (handleMerchant two_lines)).
  - exact two_rows_unique.
  - apply run_steps.
Defined.

Lemma fileLoader_fails_fast_witness :
  steps (handleMerchant_start bad_second_line) (handleMerchant bad_second_line) /\
  alive (handleMerchant bad_second_line) = false /\
  reader (handleMerchant bad_second_line) = [Line ["44"%string; "1"%string]].
Proof.
  destruct (fileLoader_fails_fast bad_second_line
              [Line ["42"%string; "7"%string]]
              (Line ["43"%string; "x"%string])
              [Line ["44"%string; "1"%string]]
              [row 42 (Some 7) 0]
              (NumError "ParseInt" "x" ErrSyntax)) as (H1 & H2 & H3).
  - reflexivity.
  - reflexivity.
  - reflexivity.
  - reflexivity.
  - constructor; [| constructor].
    exists ["42"%string; "7"%string]. split; reflexivity.
  - cbn. eexists. vm_compute. reflexivity.
  - split; [exact H1 |]. split; [exact H2 |].
    destruct (H3 _ H1 H2) as (_ & _ & _ & R & _). exact R.
Defined.

Lemma missing_key_is_no_error_witness :
  exists s',
    step (first_in_hand unknown_key) s' /\
    consumer s' = CRecv /\ alive s' = true /\
    rows (world s') = two_rows.
Proof.
  destruct (missing_key_is_no_error (first_in_hand unknown_key) pooled_DB
              (row 99 (Some 5) 0)) as (s' & H1 & _ & H3 & H4 & H5 & _).
  - vm_compute. reflexivity.
  - reflexivity.
  - vm_compute. reflexivity.
  - intros r [<- | [<- | []]]; cbn; discriminate.
  - exists s'. repeat split; assumption.
Defined.


Lemma store_failure_is_not_fatal_witness :
  exists s',
    step (first_in_hand failing_lookup) s' /\
    consumer s' = CRecv /\ alive s' = true /\
    rows (world s') = two_rows.
Proof.
  destruct (store_failure_is_not_fatal failing_lookup (first_in_hand failing_lookup)
              pooled_DB (row 42 (Some 7) 0) (ErrDriver "connection reset") None [])
    as (s' & H1 & _ & H3 & H4 & H5 & _).
  - reflexivity.
  - reflexivity.
  - vm_compute. reflexivity.
  - apply run_steps.
  - reflexivity.
  - vm_compute. reflexivity.
  - vm_compute. reflexivity.
  - exists s'. repeat split; assumption.
Defined.

Lemma short_first_line_panics_witness :
  crashed (handleMerchant one_field) = Some "index out of range"%string /\
  (forall err, producer (handleMerchant one_field) <> PReturned err /\
               producer (handleMerchant one_field) <> PExit err) /\
  issued (world (handleMerchant one_field)) = [].
Proof.
  destruct (short_first_line_panics one_field "42" [Line ["43"%string; "9"%string]] 42
              eq_refl eq_refl eq_refl) as (_ & _ & H).
  apply H.
  - apply run_steps.
  - vm_compute. reflexivity.
Defined.

(** * Further properties *)

(** ** The lines the record source accepts *)

Lemma digit_of_below_ten (c : ascii) (d : Z) :
  strconv.digit_of c = Some d -> (d >=? 10) = false ->
  is_dec_digit c = true /\ d = strconv.byte_of c - 48.
Proof.
  unfold strconv.digit_of, is_dec_digit. cbv zeta.
  destruct ((48 <=? strconv.byte_of c) && (strconv.byte_of c <=? 57)).
  - intros H _. injection H as <-. split; reflexivity.
  - destruct ((97 <=? strconv.lower (strconv.byte_of c)) &&
              (strconv.lower (strconv.byte_of c) <=? 122)) eqn:E; [| discriminate].
    intros H Hd. injection H as <-.
    apply andb_prop in E. destruct E as [E _]. lia.
Qed.

(** A range error of the digit loop comes with the largest value. *)
Lemma ParseUint_loop_range (s : string) : forall n u,
  strconv.ParseUint_loop 10 (strconv.maxUint64 / 10 + 1) strconv.maxUint64 s n
    = (u, Some ErrRange) ->
  u = strconv.maxUint64.
Proof.
  induction s as [| c s IH]; cbn [strconv.ParseUint_loop]; intros n u H.
  - discriminate H.
  - destruct (strconv.digit_of c) as [d |]; [| discriminate H].
    destruct (d >=? 10); [discriminate H |].
    destruct (n >=? strconv.maxUint64 / 10 + 1); [injection H as <-; reflexivity |].
    cbv zeta in H.
    destruct ((uint64 (uint64 (n * 10) + d) <? uint64 (n * 10))
              || (uint64 (uint64 (n * 10) + d) >? strconv.maxUint64));
      [injection H as <-; reflexivity | apply (IH _ _ H)].
Qed.

(** Without an error the digit loop has read decimal digits only and
    returns their value, which fits 64 bits. *)
Lemma ParseUint_loop_sound (s : string) : forall n v,
  0 <= n <= strconv.maxUint64 ->
  strconv.ParseUint_loop 10 (strconv.maxUint64 / 10 + 1) strconv.maxUint64 s n
    = (v, None) ->
  dec_value n s = Some v /\ 0 <= v <= strconv.maxUint64.
Proof.
  assert (Hmax : strconv.maxUint64 = 18446744073709551615) by reflexivity.
  assert (Hcut : strconv.maxUint64 / 10 + 1 = 1844674407370955162) by reflexivity.
  induction s as [| c s IH]; cbn [strconv.ParseUint_loop dec_value]; intros n v Hn H.
  - injection H as <-. split; [reflexivity | exact Hn].
  - destruct (strconv.digit_of c) as [d |] eqn:Hd; [| discriminate H].
    destruct (d >=? 10) eqn:E1; [discriminate H |].
    destruct (digit_of_below_ten c d Hd E1) as [Hc ->].
    destruct (digit_of_dec c Hc) as [_ Hr].
    rewrite Hc.
    destruct (n >=? strconv.maxUint64 / 10 + 1) eqn:E2; [discriminate H |].
    cbv zeta in H.
    assert (Hu1 : uint64 (n * 10) = n * 10).
    { unfold uint64. apply Z.mod_small. lia. }
    rewrite Hu1 in H.
    destruct ((uint64 (n * 10 + (strconv.byte_of c - 48)) <? n * 10)
              || (uint64 (n * 10 + (strconv.byte_of c - 48)) >? strconv.maxUint64))
      eqn:E3; [discriminate H |].
    apply orb_false_elim in E3. destruct E3 as [E3 E4].
    assert (Hsmall : n * 10 + (strconv.byte_of c - 48) < 2 ^ 64).
    { destruct (Z_lt_ge_dec (n * 10 + (strconv.byte_of c - 48)) (2 ^ 64)) as [L | G];
        [exact L | exfalso].
      assert (X : uint64 (n * 10 + (strconv.byte_of c - 48)) =
                  n * 10 + (strconv.byte_of c - 48) - 2 ^ 64).
      { unfold uint64. symmetry. apply (Z.mod_unique _ _ 1); lia. }
      rewrite X in E3. lia. }
    assert (Hu2 : uint64 (n * 10 + (strconv.byte_of c - 48)) =
                  n * 10 + (strconv.byte_of c - 48)).
    { unfold uint64. apply Z.mod_small. lia. }
    rewrite Hu2 in H. apply IH in H; [exact H | lia].
Qed.

Lemma ParseUint_sound (s : string) (v : Z) :
  strconv.ParseUint s 10 64 = (v, None) ->
  unsigned_value s = Some v /\ 0 <= v <= strconv.maxUint64.
Proof.
  destruct s as [| c s]; [discriminate |].
  unfold unsigned_value, strconv.ParseUint.
  change (negb ((2 <=? 10) && (10 <=? 36))) with false.
  change ((64 <? 0) || (64 >? 64)) with false.
  cbv iota beta zeta.
  change (uint64 (uint64 (2 ^ (if 64 =? 0 then 64 else 64)) - 1)) with strconv.maxUint64.
  apply ParseUint_loop_sound. unfold strconv.maxUint64. lia.
Qed.

Lemma ParseUint_range (s : string) (u : Z) :
  strconv.ParseUint s 10 64 = (u, Some ErrRange) -> u = strconv.maxUint64.
Proof.
  destruct s as [| c s]; [discriminate |].
  unfold strconv.ParseUint.
  change (negb ((2 <=? 10) && (10 <=? 36))) with false.
  change ((64 <? 0) || (64 >? 64)) with false.
  cbv iota beta zeta.
  change (uint64 (uint64 (2 ^ (if 64 =? 0 then 64 else 64)) - 1)) with strconv.maxUint64.
  apply ParseUint_loop_range.
Qed.

(** What [ParseInt] returns without an error is the value of a decimal
    numeral of the 64-bit range. *)
Lemma ParseInt_sound (s : string) (v : Z) :
  strconv.ParseInt s 10 64 = (v, None) ->
  numeral_value s = Some v /\ in_int64 v.
Proof.
  assert (H63 : 2 ^ 63 = 9223372036854775808) by reflexivity.
  assert (H64 : 2 ^ 64 = 18446744073709551616) by reflexivity.
  assert (Hmax : strconv.maxUint64 = 18446744073709551615) by reflexivity.
  assert (G : forall (t : string) (neg : bool) (r : Z * option error) (s0 : string),
    (let '(un, err) := strconv.ParseUint t 10 64 in
     match err with
     | Some ErrSyntax => (0, Some (NumError strconv.fnParseInt s0 ErrSyntax))
     | Some ErrBase => (0, Some (NumError strconv.fnParseInt s0 ErrBase))
     | Some ErrBitSize => (0, Some (NumError strconv.fnParseInt s0 ErrBitSize))
     | _ =>
         if negb neg && (un >=? 2 ^ 63)
         then (2 ^ 63 - 1, Some (NumError strconv.fnParseInt s0 ErrRange))
         else if neg && (un >? 2 ^ 63)
         then (- 2 ^ 63, Some (NumError strconv.fnParseInt s0 ErrRange))
         else (if neg then int64 (- int64 un) else int64 un, None)
     end) = (v, None) ->
    exists u, unsigned_value t = Some u /\ v = (if neg then - u else u) /\ in_int64 v).
  { intros t neg r s0.
    destruct (strconv.ParseUint t 10 64) as [un [[] |]] eqn:HU; try discriminate.
    - apply ParseUint_range in HU. subst un. rewrite Hmax.
      destruct neg; cbn [negb andb].
      + destruct (18446744073709551615 >? 2 ^ 63) eqn:E; [discriminate | lia].
      + destruct (18446744073709551615 >=? 2 ^ 63) eqn:E; [discriminate | lia].
    - apply ParseUint_sound in HU. destruct HU as [HU Hr].
      destruct neg; cbn [negb andb].
      + destruct (un >? 2 ^ 63) eqn:E; [discriminate |].
        intros H. injection H as <-. exists un. split; [exact HU |].
        assert (X : int64 (- int64 un) = - un).
        { unfold int64. destruct (Z.eq_dec un (2 ^ 63)) as [-> | Hne].
          - vm_compute. reflexivity.
          - rewrite (Z.mod_small (un + 2 ^ 63)) by lia.
            replace (un + 2 ^ 63 - 2 ^ 63) with un by lia.
            rewrite Z.mod_small; lia. }
        rewrite X. split; [reflexivity | unfold in_int64; lia].
      + destruct (un >=? 2 ^ 63) eqn:E; [discriminate |].
        intros H. injection H as <-. exists un. split; [exact HU |].
        assert (X : int64 un = un).
        { unfold int64. rewrite Z.mod_small; lia. }
        rewrite X. split; [reflexivity | unfold in_int64; lia]. }
  destruct s as [| c s]; [discriminate |].
  unfold strconv.ParseInt, numeral_value.
  change (2 ^ ((if 64 =? 0 then 64 else 64) - 1)) with (2 ^ 63).
  destruct (Ascii.eqb c "+") eqn:Eplus.
  - intros H. apply (G s false (v, None)) in H.
    destruct H as (u & Hu & -> & Hv). split; assumption.
  - destruct (Ascii.eqb c "-") eqn:Eminus.
    + intros H. apply (G s true (v, None)) in H.
      destruct H as (u & Hu & -> & Hv). rewrite Hu. split; [reflexivity | assumption].
    + intros H. apply (G (String c s) false (v, None)) in H.
      destruct H as (u & Hu & -> & Hv). split; assumption.
Qed.

(** X1.  The record source sends a record for a line only when the
    reader gave no error and fields 0 and 1 of the line are decimal
    numerals (optional sign, digits) of the 64-bit range; the record
    has the value of field 0 as key and the value of field 1 narrowed
    to [int32] as branch count.  No other line yields a record. *)
Theorem fileLoader_sends_only_integers (merchant m : Merchant) (line : list string)
    (err : option error) :
  fileLoader_body merchant line err = Send m ->
  err = None /\
  exists f0 f1 retailerID v,
    nth_error line 0 = Some f0 /\ nth_error line 1 = Some f1 /\
    numeral_value f0 = Some retailerID /\ in_int64 retailerID /\
    numeral_value f1 = Some v /\ in_int64 v /\
    m = {| RetailerID := retailerID; BranchCount := Some (int32 v);
           ExpireAt := ExpireAt merchant |}.
Proof.
  unfold fileLoader_body, index. destruct err as [e |].
  - destruct (is_EOF e); discriminate.
  - destruct (nth_error line 0) as [f0 |]; [| discriminate].
    destruct (strconv.ParseInt f0 10 64) as [rid [e |]] eqn:P0; [discriminate |].
    destruct (nth_error line 1) as [f1 |]; [| discriminate].
    destruct (strconv.ParseInt f1 10 64) as [bc [e |]] eqn:P1; [discriminate |].
    intros H. injection H as <-. split; [reflexivity |].
    apply ParseInt_sound in P0. apply ParseInt_sound in P1.
    exists f0, f1, rid, bc. tauto.
Qed.

Lemma fileLoader_sends_only_integers_witness :
  exists f0 f1 retailerID v,
    nth_error ["-5"%string; "+12"%string] 0 = Some f0 /\
    nth_error ["-5"%string; "+12"%string] 1 = Some f1 /\
    numeral_value f0 = Some retailerID /\ in_int64 retailerID /\
    numeral_value f1 = Some v /\ in_int64 v /\
    row (-5) (Some 12) 0 =
      {| RetailerID := retailerID; BranchCount := Some (int32 v); ExpireAt := 0 |}.
Proof.
  destruct (fileLoader_sends_only_integers zero_Merchant (row (-5) (Some 12) 0)
              ["-5"%string; "+12"%string] None) as [_ H].
  - vm_compute. reflexivity.
  - exact H.
Defined.

(** ** Opening the database *)

(** X2.  [newDB] returns either a handle and no error or no handle and
    an error, never both and never neither: the handle when
    [gorm.Open] and [db.DB] both succeed, with the pool set to 100
    open and 5 idle connections, a lifetime of an hour and an idle
    time of thirty minutes; the error of the first of the two that
    fails otherwise. *)
Theorem newDB_handle_or_error (env : Environment) :
  match newDB env with
  | (Some d, None) =>
      gorm_Open env = None /\ db_DB env = None /\
      MaxOpenConns d = 100 /\ MaxIdleConns d = 5 /\
      ConnMaxLifetime d = 3600 /\ ConnMaxIdleTime d = 1800
  | (None, Some err) =>
      gorm_Open env = Some err \/ (gorm_Open env = None /\ db_DB env = Some err)
  | _ => False
  end.
Proof.
  unfold newDB, configConnection.
  destruct (gorm_Open env) as [e |]; [left; reflexivity |].
  destruct (db_DB env) as [e |]; [right; split; reflexivity |].
  repeat split; reflexivity.
Qed.

(** ** The process ends *)

(** X3.  From every state an execution reaches, on every file and
    database, the process has no infinite execution and no deadlock:
    the number of steps left is bounded by the weight of the state,
    and the execution can be continued to a state where
    [handleMerchant] has returned or a panic has ended the process. *)
Theorem pipeline_always_ends (env : Environment) (s : Sys) :
  steps (handleMerchant_start env) s ->
  Acc (fun s' s => step s s') s /\
  (forall t, steps s t -> (weight t <= weight s)%nat) /\
  exists t, steps s t /\ alive t = false /\
            (main t = MReturned \/ crashed t <> None).
Proof.
  intros H. split; [apply step_well_founded |].
  split; [intros t Ht; apply steps_weight; exact Ht |].
  destruct (steps_to_end _ s (handleMerchant_start_initial env) H) as [H1 H2].
  eexists. split; [exact H1 |]. split; [exact H2 |].
  destruct (crashed (run (weight s) s)) eqn:Hc.
  - right. discriminate.
  - left. apply ended_returned; assumption.
Qed.

Lemma pipeline_always_ends_witness :
  exists t, steps (first_in_hand two_lines) t /\ alive t = false /\
            (main t = MReturned \/ crashed t <> None).
Proof.
  destruct (pipeline_always_ends two_lines (first_in_hand two_lines)) as (_ & _ & H).
  - apply run_steps.
  - exact H.
Defined.

(** ** When no panic can happen *)

Lemma fileLoader_body_two_fields (mv : Merchant) (line : list string)
    (err : option error) (why : string) :
  (err = None -> (2 <= List.length line)%nat) ->
  fileLoader_body mv line err <> Panics why.
Proof.
  intros Hl. unfold fileLoader_body, index. destruct err as [e |].
  - destruct (is_EOF e); discriminate.
  - specialize (Hl eq_refl).
    destruct line as [| f0 [| f1 line]]; cbn [List.length] in Hl; try lia.
    cbn [nth_error].
    destruct (strconv.ParseInt f0 10 64) as [rid [e |]]; [discriminate |].
    destruct (strconv.ParseInt f1 10 64) as [bc [e |]]; discriminate.
Qed.

Lemma fileLoader_loop_two_fields (f : File) (rd : list ReadResult) : forall mv,
  Forall two_fields rd ->
  exists err ls, snd (fst (fileLoader_loop f mv rd)) = Returned err ls.
Proof.
  induction rd as [| r rd IH]; intros mv Hf.
  - cbn. eexists. eexists. reflexivity.
  - inversion Hf as [| x xs Hr Hrd]; subst.
    cbn [fileLoader_loop].
    destruct (Read (r :: rd)) as [[line err] rest] eqn:HR.
    assert (Hl : err = None -> (2 <= List.length line)%nat).
    { destruct r as [fields | e]; cbn in HR; injection HR as <- <- <-.
      - intros _. exact Hr.
      - discriminate. }
    destruct (fileLoader_body mv line err) as [| e ls | m | why] eqn:Hb.
    + eexists. eexists. reflexivity.
    + eexists. eexists. reflexivity.
    + destruct (IH m Hrd) as (e & ls & He).
      destruct (fileLoader_loop f m rd) as [[ms e'] u]. cbn [fst snd] in *.
      eexists. eexists. exact He.
    + exfalso. apply (fileLoader_body_two_fields mv line err why Hl Hb).
Qed.

(** X4.  With the database open and at least two fields on every line
    of the file, no schedule leads to a panic: every state reached is
    free of a crash, and the process ends by [handleMerchant]
    returning. *)
Theorem pipeline_never_panics (env : Environment) (s : Sys) :
  gorm_Open env = None -> db_DB env = None ->
  Forall two_fields (content (retail_csv env)) ->
  steps (handleMerchant_start env) s ->
  crashed s = None /\ (alive s = false -> main s = MReturned).
Proof.
  intros Ho Hd Hf Hs.
  assert (He : exists err ls, snd (fst (fileLoader (retail_csv env))) = Returned err ls).
  { unfold fileLoader. destruct (open_err (retail_csv env)).
    - eexists. eexists. reflexivity.
    - apply fileLoader_loop_two_fields. exact Hf. }
  destruct He as (err & ls & He).
  pose proof (panic_free_open env err ls Ho Hd He) as Hp.
  destruct (steps_panic_free _ _ (handleMerchant_start_initial env) Hp Hs) as [Hc _].
  split; [exact Hc |]. intros Ha. apply ended_returned; assumption.
Qed.

Lemma pipeline_never_panics_witness :
  crashed (handleMerchant bad_second_line) = None /\
  (alive (handleMerchant bad_second_line) = false ->
   main (handleMerchant bad_second_line) = MReturned).
Proof.
  apply (pipeline_never_panics bad_second_line (handleMerchant bad_second_line)).
  - reflexivity.
  - reflexivity.
  - repeat constructor.
  - apply run_steps.
Defined.

(** ** The panics that can happen *)

Lemma fileLoader_body_panic (mv : Merchant) (line : list string)
    (err : option error) (why : string) :
  fileLoader_body mv line err = Panics why -> why = "index out of range"%string.
Proof.
  unfold fileLoader_body, index. destruct err as [e |].
  - destruct (is_EOF e); discriminate.
  - destruct (nth_error line 0) as [f0 |]; [| intros H; injection H as <-; reflexivity].
    destruct (strconv.ParseInt f0 10 64) as [rid [e |]]; [discriminate |].
    destruct (nth_error line 1) as [f1 |]; [| intros H; injection H as <-; reflexivity].
    destruct (strconv.ParseInt f1 10 64) as [bc [e |]]; discriminate.
Qed.

Lemma fileLoader_loop_panic (f : File) (rd : list ReadResult) : forall mv why ls,
  snd (fst (fileLoader_loop f mv rd)) = Panicked why ls ->
  why = "index out of range"%string.
Proof.
  induction rd as [| r rd IH]; intros mv why ls.
  - cbn. discriminate.
  - cbn [fileLoader_loop].
    destruct (Read (r :: rd)) as [[line err] rest].
    destruct (fileLoader_body mv line err) as [| e l | m | why'] eqn:Hb;
      try (cbn; discriminate).
    + specialize (IH m why ls).
      destruct (fileLoader_loop f m rd) as [[ms e'] u]. exact IH.
    + cbn. intros H. injection H as <- _.
      apply (fileLoader_body_panic mv line err why' Hb).
Qed.

Lemma consume_panic (d : option DB) (m : Merchant) (w w' : World) (why : string) :
  consume d m w = (Panic why, w') -> BranchCount m <> None ->
  d = None /\ why = nil_dereference.
Proof.
  intros H Hb.
  assert (G : forall res, consume d m w = (res, w') -> res = Panic why ->
                          d = None /\ why = nil_dereference).
  { intros res E. consume_paths E; intros X; try discriminate X.
    - congruence.
    - injection X as <-. split; reflexivity. }
  apply (G (Panic why) H eq_refl).
Qed.

Lemma start_db_newDB (env : Environment) :
  db (handleMerchant_start env) = fst (newDB env).
Proof. unfold handleMerchant_start. destruct (newDB env). reflexivity. Qed.

(** X5.  A panic of the process has one of two causes, whatever the
    schedule: the record source indexes a line that is too short, or
    the consumer calls [updateBranchCount] on the nil database that a
    failed [newDB] left.  The coordination itself - the channel, the
    wait group, the closing of the channel - never panics. *)
Theorem only_two_panics (env : Environment) (s : Sys) (why : string) :
  steps (handleMerchant_start env) s ->
  crashed s = Some why ->
  (why = "index out of range"%string /\
   exists ls, snd (fst (fileLoader (retail_csv env))) = Panicked why ls) \/
  (why = nil_dereference /\ fst (newDB env) = None).
Proof.
  intros Hs Hc. pose proof (handleMerchant_start_initial env) as Hi.
  destruct (crash_step _ _ Hs (init_crashed _ Hi) ltac:(congruence))
    as (p & Hp & Hps & Hpc).
  pose proof (reachable_Inv _ _ Hi Hp Hpc) as I.
  destruct (crash_cause _ p s why I Hps Hc) as [[_ [ls X]] | (m & Hco & w & Hcons & _)].
  - left. rewrite start_future in X. split; [| exists ls; exact X].
    unfold fileLoader in X. destruct (open_err (retail_csv env)); [discriminate X |].
    apply (fileLoader_loop_panic _ _ _ _ _ X).
  - right.
    assert (Hb : BranchCount m <> None).
    { destruct (inv_world _ _ I) as (treated & w0 & E1 & _).
      rewrite start_future in E1. unfold pending, in_hand in E1. rewrite Hco in E1.
      pose proof (fileLoader_BranchCount (retail_csv env)) as F.
      rewrite E1 in F. rewrite Forall_app in F. destruct F as [_ F].
      inversion F; assumption. }
    destruct (consume_panic _ _ _ _ _ Hcons Hb) as [Hd ->].
    split; [reflexivity |].
    rewrite <- start_db_newDB, <- (inv_db _ _ I). exact Hd.
Qed.

Lemma only_two_panics_witness :
  ("index out of range"%string = "index out of range"%string /\
   exists ls, snd (fst (fileLoader (retail_csv one_field))) =
              Panicked "index out of range" ls) \/
  ("index out of range"%string = nil_dereference /\ fst (newDB one_field) = None).
Proof.
  apply (only_two_panics one_field (handleMerchant one_field)).
  - apply run_steps.
  - vm_compute. reflexivity.
Defined.

(** ** The result does not depend on the schedule *)

Lemma schedule_producer_first_step (s s' : Sys) :
  schedule_producer_first s = Some s' -> step s s'.
Proof.
  unfold schedule_producer_first. destruct (alive s) eqn:Ha; [| discriminate].
  destruct (producer_step s) eqn:E1.
  { intros H. injection H as <-. apply step_producer; assumption. }
  destruct (closer_step s) eqn:E2.
  { intros H. injection H as <-. apply step_closer; assumption. }
  destruct (handoff s) eqn:E3.
  { intros H. injection H as <-. apply step_handoff; assumption. }
  destruct (consumer_step s) eqn:E4.
  { intros H. injection H as <-. apply step_consumer; assumption. }
  intros H. apply step_done; assumption.
Qed.

Lemma run_producer_first_steps (n : nat) (s : Sys) : steps s (run_producer_first n s).
Proof.
  revert s. induction n as [| n IH]; intros s; cbn [run_producer_first].
  - apply steps_refl.
  - destruct (schedule_producer_first s) as [s' |] eqn:E; [| apply steps_refl].
    apply (steps_step s s'); [apply schedule_producer_first_step; exact E | apply IH].
Qed.

(** X6.  Two executions of the program on the same file and database
    that end by [handleMerchant] returning leave the same table, the
    same statements sent in the same order, the same log of the
    consumer and the same input unread, however differently their
    goroutines were scheduled. *)
Theorem result_independent_of_schedule (env : Environment) (s1 s2 : Sys) :
  steps (handleMerchant_start env) s1 ->
  steps (handleMerchant_start env) s2 ->
  main s1 = MReturned -> main s2 = MReturned ->
  rows (world s1) = rows (world s2) /\
  issued (world s1) = issued (world s2) /\
  logged (world s1) = logged (world s2) /\
  reader s1 = reader s2.
Proof.
  intros H1 H2 M1 M2.
  destruct (returned_unique _ s1 s2 (handleMerchant_start_initial env) H1 H2 M1 M2)
    as [W R].
  rewrite W. repeat split; try reflexivity. exact R.
Qed.

Lemma result_independent_of_schedule_witness :
  rows (world (handleMerchant two_lines)) =
    rows (world (run_producer_first 40 (handleMerchant_start two_lines))) /\
  issued (world (handleMerchant two_lines)) =
    issued (world (run_producer_first 40 (handleMerchant_start two_lines))) /\
  logged (world (handleMerchant two_lines)) =
    logged (world (run_producer_first 40 (handleMerchant_start two_lines))) /\
  reader (handleMerchant two_lines) =
    reader (run_producer_first 40 (handleMerchant_start two_lines)).
Proof.
  apply (result_independent_of_schedule two_lines).
  - apply run_steps.
  - apply run_producer_first_steps.
  - vm_compute. reflexivity.
  - vm_compute. reflexivity.
Defined.

Example schedules_differ :
  run 4 (handleMerchant_start two_lines) <>
  run_producer_first 4 (handleMerchant_start two_lines).
Proof. vm_compute. discriminate. Qed.

(** ** What a complete run leaves in the table *)

(** The rows after the treatment of a record that returned, when the
    database failed no statement. *)
Lemma consume_rows_no_faults (d : option DB) (m : Merchant) (w w' : World) :
  no_faults w -> consume d m w = (Val tt, w') ->
  (rows w' = rows w /\
   (lookup (RetailerID m) (rows w) = None \/
    exists r c, lookup (RetailerID m) (rows w) = Some r /\ BranchCount r = Some c)) \/
  (exists r v, lookup (RetailerID m) (rows w) = Some r /\ BranchCount r = None /\
               BranchCount m = Some v /\
               rows w' = write_branch_count (RetailerID m) v (rows w)).
Proof.
  intros Hn E.
  pose proof (no_faults_outcome (logs (handle_entry m) w) 0 Hn) as N0.
  pose proof (no_faults_outcome (logs (handle_entry m) w) 1 Hn) as N1.
  assert (G : forall res w'', consume d m w = (res, w'') -> res = Val tt ->
    (rows w'' = rows w /\
     (lookup (RetailerID m) (rows w) = None \/
      exists r c, lookup (RetailerID m) (rows w) = Some r /\ BranchCount r = Some c)) \/
    (exists r v, lookup (RetailerID m) (rows w) = Some r /\ BranchCount r = None /\
                 BranchCount m = Some v /\
                 rows w'' = write_branch_count (RetailerID m) v (rows w))).
  { intros res w'' H.
    consume_paths H; intros Hres; cbn [rows stored sent logs] in *; try congruence.
    - left. split; [reflexivity | left; assumption].
    - left. split; [reflexivity | right; eauto].
    - right. eauto 10. }
  apply (G (Val tt) w' E eq_refl).
Qed.

Lemma expected_row_skip (m : Merchant) (ms : list Merchant) (r : Merchant) :
  RetailerID m <> RetailerID r -> expected_row (m :: ms) r = expected_row ms r.
Proof.
  intros H. unfold expected_row. cbn [find].
  apply Z.eqb_neq in H. rewrite H. reflexivity.
Qed.

Lemma expected_row_present (ms : list Merchant) (r : Merchant) (c : Z) :
  BranchCount r = Some c -> expected_row ms r = r.
Proof. intros H. unfold expected_row. rewrite H. reflexivity. Qed.

Lemma consume_all_rows (d : option DB) (ms : list Merchant) : forall (w w' : World),
  no_faults w -> unique_keys (rows w) ->
  consume_all d ms w = (Val tt, w') ->
  rows w' = map (expected_row ms) (rows w).
Proof.
  induction ms as [| m ms IH]; intros w w' Hn Hu E.
  - cbn in E. injection E as <-. symmetry.
    rewrite <- (map_id (rows w)) at 2. apply map_ext. intros r.
    unfold expected_row. destruct (BranchCount r); reflexivity.
  - cbn [consume_all] in E. unfold bind in E.
    pose proof (consume_no_faults d m w Hn) as Hn1.
    pose proof (consume_evolves d m w Hu) as Hev.
    destruct (consume d m w) as [[[] | why] w1] eqn:E1; [| discriminate E].
    cbn [snd] in Hn1, Hev.
    pose proof (evolves_unique_keys _ _ Hev Hu) as Hu1.
    rewrite (IH w1 w' Hn1 Hu1 E).
    destruct (consume_rows_no_faults d m w w1 Hn E1)
      as [[-> [Hnone | (r0 & c & Hl & Hc)]] | (r0 & v & Hl & Hc & Hv & ->)].
    + apply map_ext_in. intros r Hr. symmetry. apply expected_row_skip.
      rewrite lookup_none in Hnone. intros X. apply (Hnone r Hr). auto.
    + apply map_ext_in. intros r Hr.
      destruct (Z.eq_dec (RetailerID m) (RetailerID r)) as [Heq | Hne].
      * pose proof (lookup_unique _ r Hu Hr) as Hlr.
        rewrite <- Heq, Hl in Hlr. injection Hlr as ->.
        rewrite !(expected_row_present _ r c Hc). reflexivity.
      * symmetry. apply expected_row_skip. exact Hne.
    + unfold write_branch_count. rewrite map_map. apply map_ext_in. intros r Hr.
      destruct (RetailerID r =? RetailerID m) eqn:Ek.
      * apply Z.eqb_eq in Ek.
        pose proof (lookup_unique _ r Hu Hr) as Hlr.
        rewrite Ek, Hl in Hlr. injection Hlr as ->.
        rewrite (expected_row_present ms (with_branch_count v r) v eq_refl).
        unfold expected_row. rewrite Hc. cbn [find].
        rewrite Ek, Z.eqb_refl, Hv. reflexivity.
      * apply Z.eqb_neq in Ek. symmetry. apply expected_row_skip. congruence.
Qed.

Lemma start_rows (env : Environment) : rows (world (handleMerchant_start env)) = table env.
Proof. unfold handleMerchant_start. destruct (newDB env). reflexivity. Qed.

Lemma start_faults (env : Environment) :
  faults (world (handleMerchant_start env)) = outcomes env.
Proof. unfold handleMerchant_start. destruct (newDB env). reflexivity. Qed.

(** X7.  On a table where [retailer_id] is a key and with a database
    that fails no statement, every execution that ends by
    [handleMerchant] returning leaves each row in its place with this
    content: the row as it was when it had a branch count or when no
    record of the file has its key, and otherwise the row with the
    branch count of the first record of the file that has its key -
    later records for the same key change nothing. *)
Theorem first_record_of_a_key_wins (env : Environment) (s : Sys) :
  unique_keys (table env) ->
  Forall (fun f => f = None) (outcomes env) ->
  steps (handleMerchant_start env) s -> main s = MReturned ->
  rows (world s) =
    map (expected_row (fst (fst (fileLoader (retail_csv env))))) (table env).
Proof.
  intros Hu Hn Hs Hm.
  destruct (returned_state _ _ (handleMerchant_start_initial env) Hs Hm)
    as (w & e & ls & A1 & A2 & _).
  rewrite start_file in A1. rewrite A2. cbn [rows logs].
  rewrite <- start_rows.
  apply (consume_all_rows _ _ _ _ ltac:(unfold no_faults; rewrite start_faults; exact Hn)
           ltac:(rewrite start_rows; exact Hu) A1).
Qed.

Lemma first_record_of_a_key_wins_witness :
  rows (world (handleMerchant same_key_twice)) =
    [row 42 (Some 7) 1700000000; row 43 (Some 3) 1800000000].
Proof.
  rewrite (first_record_of_a_key_wins same_key_twice (handleMerchant same_key_twice)).
  - vm_compute. reflexivity.
  - exact two_rows_unique.
  - constructor.
  - apply run_steps.
  - vm_compute. reflexivity.
Defined.

(** ** What [updateBranchCount] can touch *)

Lemma Forall2_map_same {A : Type} (R : A -> A -> Prop) (f : A -> A) (l : list A) :
  (forall x, R x (f x)) -> Forall2 R l (map f l).
Proof.
  intros H. induction l as [| x l IH]; cbn; constructor; [apply H | exact IH].
Qed.

(** X8.  Whatever the database holds and answers, with or without
    unique keys, a call of [updateBranchCount] leaves every row in its
    place with its key and its expiry, leaves the rows of other keys
    as they were, and changes in a row of the key at most the branch
    count, to the value it was called with. *)
Theorem updateBranchCount_touches_one_column (d : option DB) (retailerID : Z)
    (branchCount : option Z) (w : World) :
  Forall2
    (fun r r' =>
       RetailerID r' = RetailerID r /\ ExpireAt r' = ExpireAt r /\
       (RetailerID r <> retailerID -> r' = r) /\
       (BranchCount r' = BranchCount r \/
        exists v, branchCount = Some v /\ BranchCount r' = Some v))
    (rows w) (rows (snd (updateBranchCount d retailerID branchCount w))).
Proof.
  assert (Same : forall rs : list Merchant,
    Forall2
      (fun r r' =>
         RetailerID r' = RetailerID r /\ ExpireAt r' = ExpireAt r /\
         (RetailerID r <> retailerID -> r' = r) /\
         (BranchCount r' = BranchCount r \/
          exists v, branchCount = Some v /\ BranchCount r' = Some v)) rs rs).
  { intros rs. rewrite <- (map_id rs) at 2. apply Forall2_map_same.
    intros x. repeat split; auto. }
  destruct d as [d |]; [| rewrite updateBranchCount_nil; apply Same].
  pose proof (updateBranchCount_path d retailerID branchCount w) as P.
  destruct (updateBranchCount (Some d) retailerID branchCount w) as [res w'].
  cbn [fst snd] in *.
  inversion P; subst; cbn [rows stored sent logs]; try apply Same.
  unfold write_branch_count. apply Forall2_map_same. intros x.
  destruct (RetailerID x =? retailerID) eqn:E.
  - apply Z.eqb_eq in E. cbn. repeat split; [congruence | right; eauto].
  - repeat split; auto.
Qed.

(** ** The statements of a complete run *)

Lemma fileLoader_loop_int32 (f : File) (rd : list ReadResult) : forall mv,
  Forall (fun m => exists v, BranchCount m = Some v /\ in_int32 v)
    (fst (fst (fileLoader_loop f mv rd))).
Proof.
  induction rd as [| r rd IH]; intros mv.
  - cbn. constructor.
  - cbn [fileLoader_loop].
    destruct (Read (r :: rd)) as [[line err] rest] eqn:HR.
    destruct (fileLoader_body mv line err) as [| e ls | m | why] eqn:Hb;
      try (cbn; constructor).
    specialize (IH m).
    destruct (fileLoader_loop f m rd) as [[ms e] u]. cbn [fst] in *.
    constructor; [| exact IH].
    apply fileLoader_body_Send in Hb. tauto.
Qed.

Lemma fileLoader_int32 (f : File) :
  Forall (fun m => exists v, BranchCount m = Some v /\ in_int32 v)
    (fst (fst (fileLoader f))).
Proof.
  unfold fileLoader. destruct (open_err f); [constructor |].
  apply fileLoader_loop_int32.
Qed.

Lemma takes_app (a b : list StoreOp) : takes (a ++ b) = (takes a + takes b)%nat.
Proof. unfold takes. rewrite filter_app, length_app. reflexivity. Qed.

Lemma in_order_counts (ms : list Merchant) (ops : list StoreOp) :
  in_order ms ops ->
  takes ops = List.length ms /\ (updates ops <= List.length ms)%nat /\
  forall op, In op ops ->
    exists m, In m ms /\
      (op = take_of (RetailerID m) \/
       exists v, BranchCount m = Some v /\ op = update_of (RetailerID m) v).
Proof.
  intros (opss & -> & F).
  induction F as [| m o ms opss Hm F IH].
  - cbn. repeat split; [lia | intros op []].
  - destruct IH as (T & U & I). cbn [List.concat List.length].
    rewrite takes_app, updates_app.
    destruct Hm as [-> | (v & Hv & ->)].
    + split; [cbn; lia |]. split; [unfold updates at 1; cbn; lia |].
      intros op Hin. apply in_app_or in Hin. destruct Hin as [[<- | []] | Hin].
      * exists m. split; [left; reflexivity | left; reflexivity].
      * destruct (I op Hin) as (m' & Hm' & X). exists m'. split; [right; exact Hm' | exact X].
    + split; [cbn; lia |]. split; [unfold updates at 1; cbn; lia |].
      intros op Hin. apply in_app_or in Hin.
      destruct Hin as [[<- | [<- | []]] | Hin].
      * exists m. split; [left; reflexivity | left; reflexivity].
      * exists m. split; [left; reflexivity | right; eauto].
      * destruct (I op Hin) as (m' & Hm' & X). exists m'. split; [right; exact Hm' | exact X].
Qed.

(** X9.  When [handleMerchant] has returned, the program has sent one
    lookup for each record the file yields and at most as many
    updates; every statement is on the merchant table for the key of a
    record of the file, and every update sets [branch_count] to the
    value of such a record, a value of the signed 32-bit range. *)
Theorem statements_of_a_complete_run (env : Environment) (s : Sys) :
  steps (handleMerchant_start env) s -> main s = MReturned ->
  takes (issued (world s)) = List.length (fst (fst (fileLoader (retail_csv env)))) /\
  (updates (issued (world s)) <= List.length (fst (fst (fileLoader (retail_csv env)))))%nat /\
  forall op, In op (issued (world s)) ->
    exists m, In m (fst (fst (fileLoader (retail_csv env)))) /\
      (op = OpTake "merchant" {| Column := "retailer_id"; Value := RetailerID m |} \/
       exists v, BranchCount m = Some v /\ in_int32 v /\
         op = OpUpdate "merchant" {| Column := "retailer_id"; Value := RetailerID m |}
                "branch_count" v).
Proof.
  intros Hs Hm.
  destruct (returned_state _ _ (handleMerchant_start_initial env) Hs Hm)
    as (w & e & ls & A1 & A2 & _).
  rewrite start_file in A1.
  destruct (consume_all_in_order _ _ _ _ A1) as (ops & Ho & Hi).
  rewrite start_issued in Hi. cbn [app] in Hi.
  rewrite A2. cbn [issued logs]. rewrite Hi.
  destruct (in_order_counts _ _ Ho) as (T & U & I).
  split; [exact T |]. split; [exact U |].
  intros op Hin. destruct (I op Hin) as (m & Hmin & X).
  exists m. split; [exact Hmin |].
  destruct X as [-> | (v & Hv & ->)]; [left; reflexivity |].
  right. exists v. split; [exact Hv |]. split; [| reflexivity].
  pose proof (fileLoader_int32 (retail_csv env)) as F.
  rewrite Forall_forall in F. destruct (F m Hmin) as (v' & Hv' & Hr).
  congruence.
Qed.

Lemma statements_of_a_complete_run_witness :
  takes (issued (world (handleMerchant two_lines))) = 2%nat.
Proof.
  destruct (statements_of_a_complete_run two_lines (handleMerchant two_lines)) as [H _].
  - apply run_steps.
  - vm_compute. reflexivity.
  - exact H.
Defined.

(** ** The ends of the record source *)

Lemma fileLoader_loop_all (f : File) (rd : list ReadResult) :
  forall (ms : list Merchant) (mv : Merchant),
    Forall2 yields rd ms -> ExpireAt mv = 0 ->
    fileLoader_loop f mv rd = (ms, Returned None (closing f), []).
Proof.
  induction rd as [| r rd IH]; intros ms mv Hy Hmv.
  - inversion Hy; subst. reflexivity.
  - inversion Hy as [| x m xs ms' Hr Hrest]; subst.
    pose proof (yields_ExpireAt r m Hr) as Hm.
    destruct Hr as (fields & -> & Hb).
    cbn [fileLoader_loop Read].
    rewrite (fileLoader_body_ExpireAt mv zero_Merchant fields None Hmv), Hb.
    rewrite (IH ms' m Hrest Hm). reflexivity.
Qed.

(** X10.  When the file opens and every line of it yields a record,
    [fileLoader] sends one record per line in the order of the lines,
    leaves nothing unread and returns nil; with the database open the
    process, however scheduled, ends by [handleMerchant] returning
    with every record handled once, in that order. *)
Theorem fileLoader_reads_to_the_end (env : Environment) (ms : list Merchant) :
  gorm_Open env = None -> db_DB env = None ->
  open_err (retail_csv env) = None ->
  Forall2 yields (content (retail_csv env)) ms ->
  fileLoader (retail_csv env) = (ms, Returned None (closing (retail_csv env)), []) /\
  forall s, steps (handleMerchant_start env) s -> alive s = false ->
    main s = MReturned /\ reader s = [] /\
    (producer s = PReturned None \/ producer s = PExit None) /\
    handled (world s) = map (fun m => [AInt (RetailerID m)]) ms.
Proof.
  intros Ho Hd Hopen Hy.
  assert (HF : fileLoader (retail_csv env) =
               (ms, Returned None (closing (retail_csv env)), [])).
  { unfold fileLoader. rewrite Hopen. apply fileLoader_loop_all; [exact Hy | reflexivity]. }
  split; [exact HF |]. intros s Hs Ha.
  assert (Hp : panic_free (handleMerchant_start env)).
  { apply (panic_free_open env None (closing (retail_csv env)) Ho Hd).
    rewrite HF. reflexivity. }
  destruct (start_db env Ho Hd) as [d Hdb].
  destruct (ended_handled env d s Hp Hdb Hs Ha) as [Hm Hh].
  destruct (returned_state _ _ (handleMerchant_start_initial env) Hs Hm)
    as (w & e & ls & _ & _ & A3 & A4 & A5 & _).
  rewrite start_file, HF in *. cbn [fst snd] in *. injection A3 as <- _.
  split; [exact Hm |]. split; [exact A4 |].
  split; [destruct A5 as [[X _] | [X _]]; auto | exact Hh].
Qed.

Lemma fileLoader_reads_to_the_end_witness :
  fileLoader (retail_csv two_lines) =
    ([row 42 (Some 7) 0; row 43 (Some 9) 0],
     Returned None (closing (retail_csv two_lines)), []).
Proof.
  destruct (fileLoader_reads_to_the_end two_lines
              [row 42 (Some 7) 0; row 43 (Some 9) 0]) as [H _].
  - reflexivity.
  - reflexivity.
  - reflexivity.
  - constructor; [eexists; split; reflexivity |].
    constructor; [eexists; split; reflexivity | constructor].
  - exact H.
Defined.

(** X11.  When the file cannot be opened, [fileLoader] returns the
    error of [os.Open] without sending anything, and the process,
    with or without a database and however scheduled, ends by
    [handleMerchant] returning: the channel is closed, the consumer
    has logged Done and nothing else, no statement was sent and the
    table is as it was. *)
Theorem open_failure_ends_quietly (env : Environment) (err : error) (s : Sys) :
  open_err (retail_csv env) = Some err ->
  steps (handleMerchant_start env) s -> alive s = false ->
  main s = MReturned /\ crashed s = None /\
  (producer s = PReturned (Some err) \/ producer s = PExit (Some err)) /\
  pipe_closed s = true /\
  rows (world s) = table env /\
  issued (world s) = [] /\
  logged (world s) = [done_entry].
Proof.
  intros Hopen Hs Ha.
  assert (HF : fileLoader (retail_csv env) = ([], Returned (Some err) [], [])).
  { unfold fileLoader. rewrite Hopen. reflexivity. }
  assert (Hp : panic_free (handleMerchant_start env)).
  { unfold panic_free. rewrite start_file, HF. cbn [fst snd]. split.
    - eexists. eexists. reflexivity.
    - eexists. reflexivity. }
  destruct (pipeline_deterministic env s Hp Hs Ha) as [Hm _].
  destruct (returned_state _ _ (handleMerchant_start_initial env) Hs Hm)
    as (w & e & ls & A1 & A2 & A3 & A4 & A5 & A6 & A7 & A8 & A9 & A10 & A11 & A12).
  rewrite start_file, HF in *. cbn [fst snd consume_all] in *.
  injection A1 as <-. injection A3 as <- _.
  split; [exact Hm |]. split; [exact A12 |].
  split; [destruct A5 as [[X _] | [X _]]; auto |].
  split; [exact A7 |]. rewrite A2. cbn [rows issued logged logs].
  rewrite start_rows, start_issued, start_logged. repeat split; reflexivity.
Qed.

Lemma open_failure_ends_quietly_witness :
  main (handleMerchant missing_file) = MReturned /\
  issued (world (handleMerchant missing_file)) = [].
Proof.
  destruct (open_failure_ends_quietly missing_file no_such_file
              (handleMerchant missing_file)) as (H1 & _ & _ & _ & _ & H2 & _).
  - reflexivity.
  - apply run_steps.
  - vm_compute. reflexivity.
  - split; [exact H1 | exact H2].
Defined.

(** ** A run without a database *)

Lemma consume_nil (m : Merchant) (w : World) :
  consume None m w = (Panic nil_dereference, logs (handle_entry m) w).
Proof. rewrite consume_run, updateBranchCount_nil. reflexivity. Qed.

Lemma consume_all_nil (ms : list Merchant) (w w' : World) :
  consume_all None ms w = (Val tt, w') -> ms = [] /\ w' = w.
Proof.
  destruct ms as [| m ms].
  - cbn. intros H. injection H as <-. split; reflexivity.
  - cbn [consume_all]. unfold bind. rewrite consume_nil. discriminate.
Qed.

(** X12.  When [newDB] has failed, no execution ever sends a statement
    or changes the table, whatever the file and the schedule; and if
    the file yields a record, [handleMerchant] never returns: the
    process can only end by a panic. *)
Theorem without_database_nothing_is_sent (env : Environment) (s : Sys) :
  fst (newDB env) = None ->
  steps (handleMerchant_start env) s ->
  issued (world s) = [] /\
  rows (world s) = table env /\
  (fst (fst (fileLoader (retail_csv env))) <> [] -> main s <> MReturned).
Proof.
  intros Hn Hs. pose proof (handleMerchant_start_initial env) as Hi.
  assert (Hd : db (handleMerchant_start env) = None).
  { rewrite start_db_newDB. exact Hn. }
  assert (G : forall p, Inv (handleMerchant_start env) p ->
                        issued (world p) = [] /\ rows (world p) = table env).
  { intros p I. destruct (inv_world _ _ I) as (treated & w & _ & E2 & E3).
    rewrite Hd in E2. apply consume_all_nil in E2. destruct E2 as [_ ->].
    rewrite E3. destruct (finished p); cbn [issued rows logs];
      rewrite start_issued, start_rows; split; reflexivity. }
  split; [| split].
  - destruct (crashed s) as [why |] eqn:Hc.
    + destruct (crash_step _ _ Hs (init_crashed _ Hi) ltac:(congruence))
        as (p & Hp & Hps & Hpc).
      pose proof (reachable_Inv _ _ Hi Hp Hpc) as I.
      destruct (G p I) as [Gi _].
      destruct (crash_world p s Hps Hpc ltac:(congruence))
        as [-> | (m & why' & _ & Hcons)]; [exact Gi |].
      rewrite (inv_db _ _ I), Hd, consume_nil in Hcons.
      injection Hcons as _ <-. exact Gi.
    + apply (G s (reachable_Inv _ _ Hi Hs Hc)).
  - destruct (crashed s) as [why |] eqn:Hc.
    + destruct (crash_step _ _ Hs (init_crashed _ Hi) ltac:(congruence))
        as (p & Hp & Hps & Hpc).
      pose proof (reachable_Inv _ _ Hi Hp Hpc) as I.
      destruct (G p I) as [_ Gr].
      destruct (crash_world p s Hps Hpc ltac:(congruence))
        as [-> | (m & why' & _ & Hcons)]; [exact Gr |].
      rewrite (inv_db _ _ I), Hd, consume_nil in Hcons.
      injection Hcons as _ <-. exact Gr.
    + apply (G s (reachable_Inv _ _ Hi Hs Hc)).
  - intros Hne Hm.
    destruct (returned_state _ _ Hi Hs Hm) as (w & e & ls & A1 & _).
    rewrite Hd, start_file in A1. apply consume_all_nil in A1.
    destruct A1 as [A1 _]. contradiction.
Qed.

Lemma without_database_nothing_is_sent_witness :
  issued (world (handleMerchant database_down)) = [] /\
  rows (world (handleMerchant database_down)) = two_rows.
Proof.
  destruct (without_database_nothing_is_sent database_down
              (handleMerchant database_down)) as (H1 & H2 & _).
  - reflexivity.
  - apply run_steps.
  - split; [exact H1 | exact H2].
Defined.

(** ** The shutdown protocol *)

(** X13.  In every state an execution reaches without a crash: the
    wait group counts one until [fileLoader] has returned and zero
    after; the channel is closed only after [fileLoader] has returned,
    so nothing is ever sent on a closed channel and nothing is left to
    send; the consumer leaves its loop only on a closed channel with
    no record pending; and [handleMerchant] has returned exactly when
    the consumer has ended. *)
Theorem shutdown_is_ordered (env : Environment) (s : Sys) :
  steps (handleMerchant_start env) s -> crashed s = None ->
  wg s = (if returned s then 0 else 1) /\
  (pipe_closed s = true -> returned s = true /\ fst (fst (future s)) = []) /\
  (finished s = true -> pipe_closed s = true /\ pending s = []) /\
  (main s = MReturned <-> consumer s = CExit).
Proof.
  intros Hs Hc.
  destruct (reachable_Inv _ _ (handleMerchant_start_initial env) Hs Hc)
    as [Idb Ifile Imlog Icr Ifut Iwg Iopen Irun Ifin Imain Iworld].
  assert (Hclosed : pipe_closed s = true ->
                    returned s = true /\ fst (fst (future s)) = []).
  { intros Hp. destruct (returned s) eqn:Hr.
    - split; [reflexivity |]. unfold returned in Hr. unfold future.
      destruct (producer s); try discriminate Hr; reflexivity.
    - destruct (Irun eq_refl) as [_ X]. congruence. }
  split; [exact Iwg |]. split; [exact Hclosed |]. split; [| exact Imain].
  intros Hf. pose proof (Ifin Hf) as Hp. split; [exact Hp |].
  destruct (Hclosed Hp) as [_ Hnone]. unfold pending, in_hand. rewrite Hnone.
  unfold finished in Hf. destruct (consumer s); try discriminate Hf; reflexivity.
Qed.

Lemma shutdown_is_ordered_witness :
  wg (handleMerchant two_lines) = 0 /\
  (main (handleMerchant two_lines) = MReturned <->
   consumer (handleMerchant two_lines) = CExit).
Proof.
  destruct (shutdown_is_ordered two_lines (handleMerchant two_lines))
    as (H1 & _ & _ & H4).
  - apply run_steps.
  - vm_compute. reflexivity.
  - split; [exact H1 | exact H4].
Defined.
